(** * Boost.uBLAS tensor extension: [span] and the sub-tensor [tensor_core]

    A shallow embedding of
    - [include/boost/numeric/ublas/tensor/span.hpp]: the strided range
      selector [span], its constructors, [operator[]] and the composition
      [operator()];
    - [subtensor.hpp]: the specialisation [tensor_core<subtensor_engine<T>>]
      with its constructor, assignments, element access, Einstein-index call
      and [swap].

    Machine integers are integers of [Z] with the conversions written out:
    [std::ptrdiff_t] is the 64-bit two's complement range and [std::size_t]
    the 64-bit unsigned range; arithmetic in [std::ptrdiff_t] that leaves
    the range wraps around, as the two's complement hardware computes it.
    C++ exceptions are the constructor [Throw] of [result]; behaviour the
    language leaves undefined for memory accesses (an unchecked index past
    the end, a dangling object) is [Undefined].  Memory does not run out:
    no allocation throws [std::bad_alloc]. *)

From Stdlib Require Import ZArith Lia Bool Ascii.
From stdpp Require Import base option list gmap pretty.

Local Open Scope Z_scope.

(** ** Machine integers *)

Definition PTRDIFF_MAX : Z := 2 ^ 63 - 1.
Definition PTRDIFF_MIN : Z := - 2 ^ 63.
Definition SIZE_MAX : Z := 2 ^ 64 - 1.

(** A value of type [std::ptrdiff_t]. *)
Definition in_ptrdiff (z : Z) : Prop := PTRDIFF_MIN <= z <= PTRDIFF_MAX.


(** Conversion to [std::size_t]: reduction modulo 2^64. *)
Definition to_size_t (z : Z) : Z := z mod 2 ^ 64.

(** Conversion to [std::ptrdiff_t], and the result of [std::ptrdiff_t]
    arithmetic on a two's complement machine: the representative of [z]
    modulo 2^64 in the signed range. *)
Definition to_ptrdiff (z : Z) : Z := (z + 2 ^ 63) mod 2 ^ 64 - 2 ^ 63.

(** ** Exceptions and results *)

Inductive exception : Type :=
| invalid_argument   (* std::invalid_argument *)
| runtime_error      (* std::runtime_error *)
| out_of_range       (* std::out_of_range *)
| length_error.      (* std::length_error *)

Inductive result (A : Type) : Type :=
| Ok (a : A)
| Throw (e : exception)
| Undefined.

Arguments Ok {A} a.
Arguments Throw {A} e.
Arguments Undefined {A}.

#[global] Instance exception_eq_dec : EqDecision exception.
Proof. solve_decision. Defined.

(** ** span.hpp *)

(** [static constexpr inline std::size_t max =
     std::numeric_limits<std::ptrdiff_t>::max();] *)
Definition max : Z := to_size_t PTRDIFF_MAX.

(** [static constexpr inline std::size_t min =
     std::numeric_limits<std::ptrdiff_t>::min();] *)
Definition min : Z := to_size_t PTRDIFF_MIN.

(** The data members, in their order of declaration; [value_type] is
    [std::ptrdiff_t]. *)
Record span : Type := { first_ : Z; last_ : Z; step_ : Z }.

(** The members hold [std::ptrdiff_t] values. *)
Definition span_wf (s : span) : Prop :=
  in_ptrdiff (first_ s) /\ in_ptrdiff (last_ s) /\ in_ptrdiff (step_ s).

(** What the three-argument constructor checks: a zero step only on a
    degenerate range. *)
Definition span_inv (s : span) : Prop := step_ s <> 0 \/ first_ s = last_ s.

(** [span()]: [first_{}], [last_{max}], [step_{1}]. *)
Definition span0 : span := {| first_ := 0; last_ := max; step_ := 1 |}.

(** [span(value_type f, value_type s, value_type l)]. *)
Definition span3 (f s l : Z) : result span :=
  if (s =? 0) && negb (f =? l)
  then Throw runtime_error
  else Ok {| first_ := f; last_ := l; step_ := s |}.

(** [span(value_type l) : span(0,1,l)]. *)
Definition span1 (l : Z) : result span := span3 0 1 l.

(** [span(value_type f, value_type l) : span(f,1,l)]. *)
Definition span2 (f l : Z) : result span := span3 f 1 l.

(** [value_type operator[](std::size_t idx) const]: [first_ + idx * step_]
    with [idx] unsigned, so both operands are converted to [std::size_t],
    the arithmetic is modulo 2^64 and the result is converted back. *)
Definition span_index (s : span) (idx : Z) : Z :=
  to_ptrdiff (to_size_t (to_size_t (first_ s) + to_size_t (idx * to_size_t (step_ s)))).

(** [span operator()(const span& rhs) const], with [lhs = *this]; the three
    arguments are computed in [std::ptrdiff_t]. *)
Definition span_call (lhs rhs : span) : result span :=
  span3 (to_ptrdiff (to_ptrdiff (first_ rhs * step_ lhs) + first_ lhs))
        (to_ptrdiff (step_ lhs * step_ rhs))
        (to_ptrdiff (to_ptrdiff (last_ rhs * step_ lhs) + first_ lhs)).

(** [bool operator==(span const&, span const&)]. *)
Definition span_eqb (lhs rhs : span) : bool :=
  (first_ lhs =? first_ rhs) && (last_ lhs =? last_ rhs) && (step_ lhs =? step_ rhs).

(** ** Collaborators of the tensor core

    [extents.hpp], [layout.hpp], [index_functions.hpp] and
    [expression_evaluation.hpp] are included by the sub-tensor header but are
    not part of these sources. *)

(** Modelled from the spec: [ublas::product] of [extents.hpp] is missing;
    "product of sizes = total element count". *)
Definition product (e : list Z) : Z := foldr Z.mul 1 e.

(** Modelled from the spec: [ublas::detail::to_index] of
    [index_functions.hpp] is missing; the physical offset is "the
    stride-weighted dot-product of indices". *)
Definition to_index (w : list Z) (i : list Z) : Z :=
  foldr Z.add 0 (zip_with Z.mul w i).

(** Modelled from the spec: the layout tags of [layout.hpp] are missing;
    the layout is "row-major/first-dimension-contiguous" or
    "column-major/last-dimension-contiguous". *)
Inductive layout_type : Type := first_order | last_order.

Existing Class layout_type.

(** Modelled from the spec: the strides of the layout whose first dimension
    is contiguous: "the linear-offset delta for moving one unit along
    dimension d" is the product of the extents before [d], a
    [size_type]. *)
Fixpoint first_order_strides (w : Z) (e : list Z) : list Z :=
  match e with
  | [] => []
  | n :: e' => w :: first_order_strides (to_size_t (w * n)) e'
  end.

(** Modelled from the spec: the strides of the layout whose last dimension
    is contiguous: the product of the extents after [d]. *)
Fixpoint last_order_strides (e : list Z) : list Z :=
  match e with
  | [] => []
  | _ :: e' => to_size_t (product e') :: last_order_strides e'
  end.

(** Modelled from the spec: [ublas::to_strides(extents, layout)] of
    [layout.hpp] is missing; the strides are "derived deterministically
    from extents + layout policy". *)
Definition to_strides (e : list Z) (layout : layout_type) : list Z :=
  match layout with
  | first_order => first_order_strides 1 e
  | last_order => last_order_strides e
  end.

(** What the container type fixes: [max_size()], the largest number of
    elements that a container can be asked to hold.  The traits of the
    container are not part of these sources, so it is a parameter. *)
Class container_traits : Type := { max_size : Z }.

(** The [max_size()] of a [std::vector] of 8-byte elements. *)
Definition vector_traits : container_traits := {| max_size := 2 ^ 60 - 1 |}.

(** ** subtensor.hpp: [tensor_core<subtensor_engine<T>>] *)

(** The private data members; the container is a [std::vector]-like flat
    sequence. *)
Record tensor_core (T : Type) : Type := {
  _extents : list Z;
  _strides : list Z;
  _container : list T
}.

Arguments _extents {T} _.
Arguments _strides {T} _.
Arguments _container {T} _.

(** Modelled from the spec: what the expression evaluator [detail::eval] of
    [expression_evaluation.hpp] sees of an expression: the extents its
    operands agree on and the value it yields at each position.  The
    evaluator "writes results into the target" and reports a rank or extent
    mismatch as an error of its own. *)
Record tensor_expression (T : Type) : Type := {
  expr_extents : list Z;
  expr_at : nat -> T
}.

Arguments expr_extents {T} _.
Arguments expr_at {T} _ _.

(** A placeholder [index::index_type<I>]. *)
Inductive index_type : Type := index (I : nat).

(** Objects live in a store and are named by their address, so that
    [*this], references and aliasing arguments can be told apart. *)
Abbreviation addr := nat (only parsing).
Abbreviation store T := (gmap nat (tensor_core T)) (only parsing).

Section tensor_core.
Context {T : Type}.
(** The value-initialised element [T{}], the layout of the parent and the
    traits of its container. *)
Context (T0 : T) {layout : layout_type} {traits : container_traits}.

(** [container_type(n)] for a [size_type] value [n]: [n] value-initialised
    elements, or a [std::length_error] when [n] is above [max_size()]. *)
Definition vector_ctor (n : Z) : result (list T) :=
  if decide (n <= max_size) then Ok (replicate (Z.to_nat n) T0)
  else Throw length_error.

(** [explicit tensor_core(Is... is)]: the members are initialised in the
    order of their declaration; the count of the container is the product
    of the extents as a [size_type]. *)
Definition tensor_core_ctor (is_ : list Z) : result (tensor_core T) :=
  let e := map to_size_t is_ in
  let w := to_strides e layout in
  match vector_ctor (to_size_t (product e)) with
  | Ok c => Ok {| _extents := e; _strides := w; _container := c |}
  | Throw x => Throw x
  | Undefined => Undefined
  end.

(** *** Observers *)

Definition size (t : tensor_core T) : Z := Z.of_nat (length (_container t)).
Definition rank (t : tensor_core T) : nat := length (_extents t).
Definition order (t : tensor_core T) : nat := rank t.
Definition strides (t : tensor_core T) : list Z := _strides t.
Definition extents (t : tensor_core T) : list Z := _extents t.
Definition empty (t : tensor_core T) : bool := bool_decide (_container t = []).

(** [size(size_type r)]: [_extents.at(r)]. *)
Definition size_r (t : tensor_core T) (r : Z) : result Z :=
  match _extents t !! Z.to_nat (to_size_t r) with
  | Some n => Ok n
  | None => Throw out_of_range
  end.

(** *** Element access

    A reference to an element is its position in the container. *)

(** [container.at(i)] for a [size_type] value [i]: the bounds check. *)
Definition vector_at (c : list T) (i : Z) : result nat :=
  if decide (i < Z.of_nat (length c)) then Ok (Z.to_nat i)
  else Throw out_of_range.

(** [container[i]] for a [size_type] value [i]: no check. *)
Definition vector_index (c : list T) (i : Z) : result nat :=
  if decide (i < Z.of_nat (length c)) then Ok (Z.to_nat i)
  else Undefined.

(** [at(I1 i1, I2 i2, Is... is)], const and non-const alike. *)
Definition at_multi (t : tensor_core T) (i1 i2 : Z) (is_ : list Z) : result nat :=
  if decide ((length is_ + 2)%nat <> order t) then Throw invalid_argument
  else
    let idx := to_index (_strides t) (i1 :: i2 :: is_) in
    vector_at (_container t) (to_size_t idx).

(** [at(size_type i)]; the argument is converted to the parameter's
    type. *)
Definition at_single (t : tensor_core T) (i : Z) : result nat :=
  vector_at (_container t) (to_size_t i).

(** The overload set [at]: a call with one integral argument selects
    [at(size_type)], a call with two or more selects the variadic
    template.  There is no overload without arguments. *)
Definition at_ (t : tensor_core T) (i1 : Z) (is_ : list Z) : result nat :=
  match is_ with
  | [] => at_single t i1
  | i2 :: is_' => at_multi t i1 i2 is_'
  end.

(** [operator()(Is... is)]: [return this->at(is...)]. *)
Definition call (t : tensor_core T) (i1 : Z) (is_ : list Z) : result nat :=
  at_ t i1 is_.

(** [operator[](size_type i)]; the argument is converted to the
    parameter's type. *)
Definition subscript (t : tensor_core T) (i : Z) : result nat :=
  vector_index (_container t) (to_size_t i).

(** Reading through a reference. *)
Definition read (t : tensor_core T) (r : result nat) : result T :=
  match r with
  | Ok pos =>
      match _container t !! pos with
      | Some x => Ok x
      | None => Undefined
      end
  | Throw e => Throw e
  | Undefined => Undefined
  end.

(** *** Mutation: the store monad *)

(** A computation returns, throws or is undefined, and leaves a store; an
    exception does not undo what was written before it.  The store that
    comes with [Undefined] has no meaning. *)
Definition M (A : Type) : Type := store T -> result A * store T.

#[global] Instance M_ret : MRet M := fun A a st => (Ok a, st).

#[global] Instance M_bind : MBind M := fun A B k m st =>
  match m st with
  | (Ok a, st') => k a st'
  | (Throw e, st') => (Throw e, st')
  | (Undefined, st') => (Undefined, st')
  end.

Definition throw {A : Type} (e : exception) : M A := fun st => (Throw e, st).

Definition lift {A : Type} (r : result A) : M A := fun st => (r, st).

(** Access to the object at an address; there must be one. *)
Definition load (p : addr) : M (tensor_core T) := fun st =>
  match st !! p with
  | Some t => (Ok t, st)
  | None => (Undefined, st)
  end.

Definition save (p : addr) (t : tensor_core T) : M unit := fun st =>
  (Ok tt, <[p := t]> st).

(** A new object at an unused address, and the end of its lifetime. *)
Definition alloc (t : tensor_core T) : M addr := fun st =>
  let p := fresh (dom st) in (Ok p, <[p := t]> st).

Definition free (p : addr) : M unit := fun st =>
  match st !! p with
  | Some _ => (Ok tt, delete p st)
  | None => (Undefined, st)
  end.

Definition set_extents (t : tensor_core T) (e : list Z) : tensor_core T :=
  {| _extents := e; _strides := _strides t; _container := _container t |}.
Definition set_strides (t : tensor_core T) (w : list Z) : tensor_core T :=
  {| _extents := _extents t; _strides := w; _container := _container t |}.
Definition set_container (t : tensor_core T) (c : list T) : tensor_core T :=
  {| _extents := _extents t; _strides := _strides t; _container := c |}.

(** [std::swap(lhs.m, rhs.m)] on a data member [m] of two objects that
    may be the same one. *)
Definition std_swap {F : Type} (get : tensor_core T -> F)
    (set : tensor_core T -> F -> tensor_core T) (lhs rhs : addr) : M unit :=
  a ← load lhs;
  let tmp := get a in
  b ← load rhs;
  save lhs (set a (get b));;
  b' ← load rhs;
  save rhs (set b' tmp).

(** [friend void swap(tensor_core& lhs, tensor_core& rhs)]. *)
Definition swap (lhs rhs : addr) : M unit :=
  std_swap _extents set_extents lhs rhs;;
  std_swap _strides set_strides lhs rhs;;
  std_swap _container set_container lhs rhs.

(** [std::fill_n(first, n, v)] from the beginning of a container. *)
Fixpoint fill_n (c : list T) (n : nat) (v : T) : list T :=
  match n, c with
  | S n', _ :: c' => v :: fill_n c' n' v
  | _, _ => c
  end.

(** [tensor_core& operator=(const_reference v)]. *)
Definition assign_scalar (this : addr) (v : T) : M addr :=
  t ← load this;
  save this (set_container t (fill_n (_container t) (length (_container t)) v));;
  mret this.

(** [tensor_core& operator=(tensor_core other) noexcept]: the parameter
    is a copy of the argument, an object of its own that is destroyed
    when the call is over. *)
Definition assign_copy (this arg : addr) : M addr :=
  src ← load arg;
  other ← alloc src;
  swap this other;;
  free other;;
  mret this.

(** Modelled from the spec: [detail::eval], missing from the sources: a
    conformance check, then every element of the target is written.  The
    spec does not name the class of the error that reports a mismatch;
    [runtime_error] stands for it. *)
Definition eval (this : addr) (expr : tensor_expression T) : M unit :=
  t ← load this;
  if decide (expr_extents expr = _extents t)
  then save this (set_container t (imap (fun i _ => expr_at expr i) (_container t)))
  else throw runtime_error.

(** [tensor_core& operator=(const tensor_expression_type<derived_type>& expr)]. *)
Definition assign_expr (this : addr) (expr : tensor_expression T) : M addr :=
  eval this expr;;
  mret this.

(** [operator()(index::index_type<I> p, index_types... ps) const]: the
    pair of a const reference to the tensor, which is its address, and the
    tuple of the tags. *)
Definition call_index (this : addr) (p : index_type) (ps : list index_type)
  : M (addr * list index_type) :=
  t ← load this;
  if decide ((length ps + 1)%nat <> order t) then throw invalid_argument
  else mret (this, p :: ps).

(** An assignment through the reference that an accessor returns:
    [t.at(i1, is...) = v], [t(i1, is...) = v], [t[i] = v]. *)
Definition write (this : addr) (f : tensor_core T -> result nat) (v : T) : M unit :=
  t ← load this;
  pos ← lift (f t);
  save this (set_container t (<[pos := v]> (_container t))).

(** Reading an element: [t.at(i1, is...)], [t(i1, is...)], [t[i]]. *)
Definition fetch (this : addr) (f : tensor_core T -> result nat) : M T :=
  t ← load this;
  lift (read t (f t)).

(** *** Programs over the public interface *)

(** The statements of a client: construction and destruction of tensors,
    the three assignments, element reads and writes through each accessor,
    the extent of a dimension, the Einstein-index call and [swap]. *)
Inductive command : Type :=
| New (is_ : list Z)                                  (* tensor_core t(is...) *)
| CopyNew (src : addr)                                (* tensor_core t(src) *)
| Delete (p : addr)                                   (* end of a lifetime *)
| AssignExpr (p : addr) (expr : tensor_expression T)  (* t = expr *)
| AssignCopy (p q : addr)                             (* t = u *)
| AssignScalar (p : addr) (v : T)                     (* t = v *)
| SetAt (p : addr) (i1 : Z) (is_ : list Z) (v : T)    (* t.at(i1, is...) = v *)
| SetCall (p : addr) (i1 : Z) (is_ : list Z) (v : T)  (* t(i1, is...) = v *)
| SetSubscript (p : addr) (i : Z) (v : T)             (* t[i] = v *)
| GetAt (p : addr) (i1 : Z) (is_ : list Z)            (* t.at(i1, is...) *)
| GetCall (p : addr) (i1 : Z) (is_ : list Z)          (* t(i1, is...) *)
| GetSubscript (p : addr) (i : Z)                     (* t[i] *)
| GetSize (p : addr) (r : Z)                          (* t.size(r) *)
| CallIndex (p : addr) (tag : index_type) (tags : list index_type)
| Swap (p q : addr).                                  (* swap(t, u) *)

Definition exec (c : command) : M unit :=
  match c with
  | New is_ => t ← lift (tensor_core_ctor is_); alloc t;; mret tt
  | CopyNew src => t ← load src; alloc t;; mret tt
  | Delete p => free p
  | AssignExpr p expr => assign_expr p expr;; mret tt
  | AssignCopy p q => assign_copy p q;; mret tt
  | AssignScalar p v => assign_scalar p v;; mret tt
  | SetAt p i1 is_ v => write p (fun t => at_ t i1 is_) v
  | SetCall p i1 is_ v => write p (fun t => call t i1 is_) v
  | SetSubscript p i v => write p (fun t => subscript t i) v
  | GetAt p i1 is_ => fetch p (fun t => at_ t i1 is_);; mret tt
  | GetCall p i1 is_ => fetch p (fun t => call t i1 is_);; mret tt
  | GetSubscript p i => fetch p (fun t => subscript t i);; mret tt
  | GetSize p r => t ← load p; lift (size_r t r);; mret tt
  | CallIndex p tag tags => call_index p tag tags;; mret tt
  | Swap p q => swap p q
  end.

(** The statements that can throw: the constructor, the checked accessors,
    the extent of a dimension, the Einstein-index call and the expression
    assignment. *)
Definition throwing (c : command) : bool :=
  match c with
  | New _ | AssignExpr _ _ | SetAt _ _ _ _ | SetCall _ _ _ _ | GetAt _ _ _
  | GetCall _ _ _ | GetSize _ _ | CallIndex _ _ _ => true
  | _ => false
  end.

(** The statements that access elements, read an extent or assign a
    scalar. *)
Definition keeps_shape (c : command) : bool :=
  match c with
  | AssignScalar _ _ | SetAt _ _ _ _ | SetCall _ _ _ _ | SetSubscript _ _ _
  | GetAt _ _ _ | GetCall _ _ _ | GetSubscript _ _ | GetSize _ _
  | CallIndex _ _ _ => true
  | _ => false
  end.





End tensor_core.

Arguments M T A : clear implicits.

(** ** span.hpp: the free functions *)

(** [bool operator!=(span const&, span const&)]: [!(lhs == rhs)]. *)
Definition span_neqb (lhs rhs : span) : bool := negb (span_eqb lhs rhs).

(** [span(span const& other)]: the members are copied, nothing is
    checked. *)
Definition span_copy (other : span) : span :=
  {| first_ := first_ other; last_ := last_ other; step_ := step_ other |}.

(** [ran(f, l)]: [span(f,l)]; the arguments are of any integral type and
    are converted to [value_type]. *)
Definition ran2 (f l : Z) : result span := span2 (to_ptrdiff f) (to_ptrdiff l).

(** [ran(f, s, l)]: [span(f,s,l)]. *)
Definition ran3 (f s l : Z) : result span :=
  span3 (to_ptrdiff f) (to_ptrdiff s) (to_ptrdiff l).

(** What [operator<<] writes for a span: the three members in decimal, in
    the order first, step, last, and the line end of [std::endl]. *)
Definition span_text (s : span) : string :=
  "[" +:+ pretty (first_ s) +:+ ":" +:+ pretty (step_ s) +:+ ":"
      +:+ pretty (last_ s) +:+ "]" +:+ String (Ascii.ascii_of_nat 10) "".

(** [std::ostream& operator<<(std::ostream& out, span const& s)] on a stream
    in its default formatting state; a stream is the text written to it so
    far. *)
Definition span_print (out : string) (s : span) : string := out +:+ span_text s.

(** A string without the character [c]. *)
Fixpoint free_of (c : Ascii.ascii) (s : string) : Prop :=
  match s with
  | EmptyString => True
  | String x s' => x <> c /\ free_of c s'
  end.

(** * Properties *)

(** ** Machine arithmetic *)

Lemma two_64 : 2 ^ 64 = 18446744073709551616.
Proof. reflexivity. Qed.

Lemma two_63 : 2 ^ 63 = 9223372036854775808.
Proof. reflexivity. Qed.

Lemma to_ptrdiff_id (z : Z) : in_ptrdiff z -> to_ptrdiff z = z.
Proof.
  unfold in_ptrdiff, PTRDIFF_MIN, PTRDIFF_MAX, to_ptrdiff.
  rewrite two_64, two_63; intros Hz.
  rewrite Z.mod_small; lia.
Qed.

Lemma to_ptrdiff_range (z : Z) : in_ptrdiff (to_ptrdiff z).
Proof.
  unfold in_ptrdiff, PTRDIFF_MIN, PTRDIFF_MAX, to_ptrdiff.
  rewrite two_64, two_63.
  pose proof (Z.mod_pos_bound (z + 9223372036854775808) 18446744073709551616).
  lia.
Qed.

Lemma to_ptrdiff_congr (x y : Z) :
  x mod 2 ^ 64 = y mod 2 ^ 64 -> to_ptrdiff x = to_ptrdiff y.
Proof.
  intros Hxy; unfold to_ptrdiff.
  rewrite <- (Zplus_mod_idemp_l x), <- (Zplus_mod_idemp_l y), Hxy.
  reflexivity.
Qed.

Lemma to_ptrdiff_mod (x : Z) : to_ptrdiff x mod 2 ^ 64 = x mod 2 ^ 64.
Proof.
  unfold to_ptrdiff.
  rewrite Zminus_mod_idemp_l.
  f_equal; lia.
Qed.

Lemma to_size_t_mod (x : Z) : to_size_t x mod 2 ^ 64 = x mod 2 ^ 64.
Proof. unfold to_size_t; apply Z.mod_mod; rewrite two_64; lia. Qed.


(** Sums and products may be reduced modulo 2^64 in their operands. *)
Lemma add_congr (x x' y y' : Z) :
  x mod 2 ^ 64 = x' mod 2 ^ 64 -> y mod 2 ^ 64 = y' mod 2 ^ 64 ->
  (x + y) mod 2 ^ 64 = (x' + y') mod 2 ^ 64.
Proof.
  intros Hx Hy.
  rewrite (Zplus_mod x y), (Zplus_mod x' y'), Hx, Hy; reflexivity.
Qed.

Lemma mul_congr (x x' y y' : Z) :
  x mod 2 ^ 64 = x' mod 2 ^ 64 -> y mod 2 ^ 64 = y' mod 2 ^ 64 ->
  (x * y) mod 2 ^ 64 = (x' * y') mod 2 ^ 64.
Proof.
  intros Hx Hy.
  rewrite (Zmult_mod x y), (Zmult_mod x' y'), Hx, Hy; reflexivity.
Qed.

(** ** The span constructors *)

Lemma span3_ok (f s l : Z) :
  s <> 0 \/ f = l -> span3 f s l = Ok {| first_ := f; last_ := l; step_ := s |}.
Proof.
  intros H; unfold span3.
  destruct (Z.eqb_spec s 0) as [Hs|Hs]; [|reflexivity].
  destruct (Z.eqb_spec f l) as [Hf|Hf]; [reflexivity|].
  exfalso; destruct H; auto.
Qed.

Lemma span3_throw (f s l : Z) :
  s = 0 -> f <> l -> span3 f s l = Throw runtime_error.
Proof.
  intros Hs Hf; unfold span3.
  destruct (Z.eqb_spec s 0) as [_|Hs']; [|contradiction].
  destruct (Z.eqb_spec f l) as [Hf'|_]; [contradiction|reflexivity].
Qed.

Lemma span3_cases (f s l : Z) :
  (s = 0 /\ f <> l /\ span3 f s l = Throw runtime_error) \/
  ((s <> 0 \/ f = l) /\ span3 f s l = Ok {| first_ := f; last_ := l; step_ := s |}).
Proof.
  destruct (Z.eq_dec s 0) as [Hs|Hs].
  - destruct (Z.eq_dec f l) as [Hf|Hf].
    + right; split; [now right|apply span3_ok; now right].
    + left; repeat split; auto using span3_throw.
  - right; split; [now left|apply span3_ok; now left].
Qed.

(** Whatever the constructor returns satisfies the construction invariant. *)
Lemma span3_inv (f s l : Z) (r : span) : span3 f s l = Ok r -> span_inv r.
Proof.
  destruct (span3_cases f s l) as [(_ & _ & E)|(H & E)]; rewrite E; [discriminate|].
  intros [= <-]; exact H.
Qed.

(** C2, as stated, fails: the zero-step failure of [span(1,0,5)] is a
    [std::runtime_error], which is not a [std::invalid_argument]. *)
Lemma span3_zero_step_not_invalid_argument :
  ~ (span3 1 0 5 = Throw invalid_argument <-> (0 = 0 /\ 1 <> 5)).
Proof.
  intros [_ H].
  assert (E : span3 1 0 5 = Throw invalid_argument) by (apply H; split; lia).
  vm_compute in E; discriminate E.
Qed.

(** C2, amended: [span(f, s, l)] throws, and what it throws is a
    [std::runtime_error], exactly when [s == 0] and [f != l]; otherwise, so
    whenever [f == l] or [s != 0], it constructs the span of [f], [s] and
    [l]; [span(1,0,5)] fails and [span(1,0,1)] succeeds. *)
Theorem span3_fails_iff (f s l : Z) :
  (span3 f s l = Throw runtime_error <-> (s = 0 /\ f <> l)) /\
  (span3 f s l = Ok {| first_ := f; last_ := l; step_ := s |} <-> (s <> 0 \/ f = l)) /\
  span3 1 0 5 = Throw runtime_error /\
  span3 1 0 1 = Ok {| first_ := 1; last_ := 1; step_ := 0 |}.
Proof.
  split; [|split; [|split; reflexivity]].
  - split.
    + intros E; destruct (span3_cases f s l) as [(Hs & Hf & _)|(_ & E')];
        [split; assumption|congruence].
    + intros [Hs Hf]; now apply span3_throw.
  - split.
    + intros E; destruct (span3_cases f s l) as [(_ & _ & E')|(H & _)];
        [congruence|assumption].
    + apply span3_ok.
Qed.

(** C3, as stated, fails: the end of a full span is not [SIZE_MAX], neither
    as the unsigned value nor as what [SIZE_MAX] becomes in the signed
    [value_type]. *)
Lemma span0_last_not_SIZE_MAX :
  last_ span0 <> SIZE_MAX /\ last_ span0 <> to_ptrdiff SIZE_MAX.
Proof. split; vm_compute; discriminate. Qed.

(** C3, amended: the default-constructed span has [first == 0],
    [step == 1] and [last] equal to the constant [max], which is
    [std::numeric_limits<std::ptrdiff_t>::max()], that is 2^63 - 1; it is a
    well-formed span that satisfies the construction invariant. *)
Theorem span0_fields :
  first_ span0 = 0 /\ step_ span0 = 1 /\
  last_ span0 = max /\ max = PTRDIFF_MAX /\ PTRDIFF_MAX = 2 ^ 63 - 1 /\
  span_wf span0 /\ span_inv span0.
Proof.
  repeat split; try reflexivity; try (vm_compute; discriminate).
  left; vm_compute; discriminate.
Qed.

(** C5: [span(l)] is [span(0, 1, l)]: it never fails and yields the span
    with [first == 0], [step == 1] and [last == l]; its first selected index
    is 0, so it selects index [l] only when [l] is 0. *)
Theorem span1_is_range (l : Z) :
  span1 l = span3 0 1 l /\
  span1 l = Ok {| first_ := 0; last_ := l; step_ := 1 |} /\
  span1 l = span2 0 l /\
  (forall r : span, span1 l = Ok r ->
     first_ r = 0 /\ step_ r = 1 /\ last_ r = l /\ span_index r 0 = 0 /\
     (first_ r = l <-> l = 0)).
Proof.
  assert (E : span1 l = Ok {| first_ := 0; last_ := l; step_ := 1 |})
    by (apply span3_ok; left; lia).
  split; [reflexivity|split; [exact E|split; [reflexivity|]]].
  intros r Hr; rewrite E in Hr; injection Hr as <-; simpl.
  repeat split; auto.
Qed.

(** ** Indexing and composition of spans *)

Lemma span_index_0 (s : span) : span_wf s -> span_index s 0 = first_ s.
Proof.
  intros (Hf & _); unfold span_index.
  rewrite <- (to_ptrdiff_id (first_ s)) at 2 by assumption.
  apply to_ptrdiff_congr.
  rewrite to_size_t_mod, Z.mul_0_l.
  change (to_size_t 0) with 0; rewrite Z.add_0_r.
  apply to_size_t_mod.
Qed.

(** The arguments that the composition passes to the constructor, with the
    intermediate conversion folded away. *)
Lemma span_call_unfold (a b : span) :
  span_call a b =
  span3 (to_ptrdiff (first_ b * step_ a + first_ a))
        (to_ptrdiff (step_ a * step_ b))
        (to_ptrdiff (last_ b * step_ a + first_ a)).
Proof.
  unfold span_call; f_equal;
    apply to_ptrdiff_congr, add_congr; auto using to_ptrdiff_mod.
Qed.

(** The first index of a composition is the image under [a] of the first
    index of [b]. *)
Lemma span_index_call (a b : span) :
  to_ptrdiff (first_ b * step_ a + first_ a) = span_index a (to_size_t (first_ b)).
Proof.
  unfold span_index; apply to_ptrdiff_congr.
  rewrite to_size_t_mod, Z.add_comm.
  apply add_congr; [now rewrite to_size_t_mod|].
  rewrite to_size_t_mod.
  apply mul_congr; now rewrite to_size_t_mod.
Qed.

(** A step product that does not overflow is zero only if a factor is. *)
Lemma step_product_no_overflow (x y : Z) :
  in_ptrdiff (x * y) -> x <> 0 -> y <> 0 -> to_ptrdiff (x * y) <> 0.
Proof.
  intros Hxy Hx Hy; rewrite to_ptrdiff_id by assumption.
  now apply Z.neq_mul_0.
Qed.

Lemma span_call_ok (a b : span) :
  span_inv a -> span_inv b ->
  (step_ a <> 0 -> step_ b <> 0 -> to_ptrdiff (step_ a * step_ b) <> 0) ->
  span_call a b =
  Ok {| first_ := to_ptrdiff (first_ b * step_ a + first_ a);
        last_ := to_ptrdiff (last_ b * step_ a + first_ a);
        step_ := to_ptrdiff (step_ a * step_ b) |}.
Proof.
  intros Ha Hb Hstep; rewrite span_call_unfold; apply span3_ok.
  destruct (Z.eq_dec (step_ a) 0) as [Ea|Ea].
  { right; now rewrite Ea, !Z.mul_0_r. }
  destruct (Z.eq_dec (step_ b) 0) as [Eb|Eb].
  { right; destruct Hb as [Hb|Hb]; [contradiction|now rewrite Hb]. }
  left; now apply Hstep.
Qed.

(** C4, as stated, fails: [a = b = span(0, 2^32, 1)] are spans, and the
    step of [a(b)] overflows to zero over distinct bounds, so that [a(b)]
    throws and is no span at all. *)
Lemma span_call_throws_on_overflow :
  let a := {| first_ := 0; last_ := 1; step_ := 2 ^ 32 |} in
  span3 0 (2 ^ 32) 1 = Ok a /\ span_wf a /\
  span_call a a = Throw runtime_error /\
  ~ (exists r : span, span_call a a = Ok r).
Proof.
  cbv zeta; split; [reflexivity|split; [|split; [reflexivity|]]].
  - repeat split; vm_compute; discriminate.
  - intros (r & Hr); vm_compute in Hr; discriminate Hr.
Qed.

(** C4, amended: whenever [a(b)] is constructed, it is the span with
    [first = b.first*a.step + a.first], [step = a.step*b.step] and
    [last = b.last*a.step + a.first], each computed in [std::ptrdiff_t],
    and [a(b)[0] == a[b.first()]]; it is constructed, with exactly the
    step [a.step*b.step], for all [a] and [b] that satisfy the construction
    invariant and whose step product does not overflow; and [s[0] ==
    s.first()] for every span [s]. *)
Theorem span_call_fields (a b : span) :
  span_wf a -> span_wf b ->
  (forall r : span, span_call a b = Ok r ->
     first_ r = to_ptrdiff (first_ b * step_ a + first_ a) /\
     step_ r = to_ptrdiff (step_ a * step_ b) /\
     last_ r = to_ptrdiff (last_ b * step_ a + first_ a) /\
     span_index r 0 = span_index a (to_size_t (first_ b))) /\
  (span_inv a -> span_inv b -> in_ptrdiff (step_ a * step_ b) ->
     exists r : span, span_call a b = Ok r /\ step_ r = step_ a * step_ b) /\
  (forall s : span, span_wf s -> span_index s 0 = first_ s).
Proof.
  intros Ha Hb; split; [|split].
  - intros r Hr; rewrite span_call_unfold in Hr.
    destruct (span3_cases (to_ptrdiff (first_ b * step_ a + first_ a))
                (to_ptrdiff (step_ a * step_ b))
                (to_ptrdiff (last_ b * step_ a + first_ a)))
      as [(_ & _ & E)|(_ & E)]; rewrite E in Hr; [discriminate|].
    injection Hr as <-; simpl; repeat split.
    rewrite span_index_0 by (repeat split; apply to_ptrdiff_range).
    apply span_index_call.
  - intros Ia Ib Hstep; eexists; split.
    + apply span_call_ok; auto using step_product_no_overflow.
    + simpl; now apply to_ptrdiff_id.
  - apply span_index_0.
Qed.

Lemma span_call_fields_witness :
  let a := {| first_ := 1; last_ := 10; step_ := 2 |} in
  let b := {| first_ := 1; last_ := 3; step_ := 1 |} in
  let r := {| first_ := 3; last_ := 7; step_ := 2 |} in
  (span_wf a /\ span_wf b) /\
  span_call a b = Ok r /\
  span_index r 0 = span_index a (to_size_t (first_ b)) /\
  span_index r 0 = first_ r.
Proof.
  cbv zeta.
  assert (Ha : span_wf {| first_ := 1; last_ := 10; step_ := 2 |})
    by (repeat split; vm_compute; discriminate).
  assert (Hb : span_wf {| first_ := 1; last_ := 3; step_ := 1 |})
    by (repeat split; vm_compute; discriminate).
  destruct (span_call_fields _ _ Ha Hb) as (Hfields & _ & Hzero).
  destruct (Hfields {| first_ := 3; last_ := 7; step_ := 2 |} eq_refl)
    as (_ & _ & _ & Hidx).
  split; [split; assumption|].
  split; [reflexivity|].
  split; [exact Hidx|].
  apply Hzero; repeat split; vm_compute; discriminate.
Defined.

(** C10, as stated, fails: [a = span(0, 2^62, 1)] and [b = span(0, 4, 1)]
    satisfy the construction invariant, and [a(b)] runs into the zero-step
    error branch of the constructor. *)
Lemma span_call_invariant_not_enough :
  let a := {| first_ := 0; last_ := 1; step_ := 2 ^ 62 |} in
  let b := {| first_ := 0; last_ := 1; step_ := 4 |} in
  span3 0 (2 ^ 62) 1 = Ok a /\ span3 0 4 1 = Ok b /\
  span_wf a /\ span_wf b /\ span_inv a /\ span_inv b /\
  span_call a b = Throw runtime_error.
Proof.
  cbv zeta; repeat split; try reflexivity;
    try (vm_compute; discriminate); left; vm_compute; discriminate.
Qed.

(** C10, amended: for every two spans [a] and [b] that satisfy the
    construction invariant and whose step product [a.step*b.step] does not
    wrap around to zero in [std::ptrdiff_t] (it does not when it does not
    overflow), [a(b)] does not fail, and its result is a span that
    satisfies the invariant again: its step is zero only when its first
    equals its last. *)
Theorem span_call_no_throw (a b : span) :
  span_inv a -> span_inv b ->
  (in_ptrdiff (step_ a * step_ b) \/
   (step_ a <> 0 -> step_ b <> 0 -> to_ptrdiff (step_ a * step_ b) <> 0)) ->
  exists r : span,
    span_call a b = Ok r /\ span_wf r /\ span_inv r /\
    (step_ r = 0 -> first_ r = last_ r).
Proof.
  intros Ha Hb Hstep.
  assert (E := span_call_ok a b Ha Hb).
  eexists; split; [apply E|].
  - destruct Hstep as [H|H]; auto using step_product_no_overflow.
  - assert (I := span3_inv _ _ _ _ (eq_trans (eq_sym (span_call_unfold a b))
                                      (E ltac:(destruct Hstep; auto using step_product_no_overflow)))).
    split; [repeat split; apply to_ptrdiff_range|].
    split; [exact I|].
    intros H0; destruct I as [I|I]; [contradiction|exact I].
Qed.

Lemma span_call_no_throw_witness :
  let a := {| first_ := 1; last_ := 10; step_ := 2 |} in
  let b := {| first_ := 0; last_ := 0; step_ := 0 |} in
  (span_inv a /\ span_inv b /\ in_ptrdiff (step_ a * step_ b)) /\
  exists r : span,
    span_call a b = Ok r /\ span_wf r /\ span_inv r /\
    (step_ r = 0 -> first_ r = last_ r).
Proof.
  cbv zeta; split.
  - split; [left; simpl; lia|split; [right; reflexivity|vm_compute; split; discriminate]].
  - apply (span_call_no_throw {| first_ := 1; last_ := 10; step_ := 2 |}
             {| first_ := 0; last_ := 0; step_ := 0 |}).
    + left; simpl; lia.
    + right; reflexivity.
    + left; vm_compute; split; discriminate.
Defined.

(** ** The tensor core *)

Section tensor_core_properties.
Context {T : Type}.
Context (T0 : T) {layout : layout_type} {traits : container_traits}.

Implicit Types (st : store T) (t : tensor_core T) (p q : addr).

(** *** The store monad *)

Lemma load_Some st p t : st !! p = Some t -> load p st = (Ok t, st).
Proof. intros H; unfold load; now rewrite H. Qed.

Lemma load_None st p : st !! p = None -> load p st = (Undefined, st).
Proof. intros H; unfold load; now rewrite H. Qed.

Lemma bind_Ok {A B : Type} (m : M T A) (k : A -> M T B) st st' (a : A) :
  m st = (Ok a, st') -> (m ≫= k) st = k a st'.
Proof. intros H; unfold mbind, M_bind; now rewrite H. Qed.

Lemma bind_Throw {A B : Type} (m : M T A) (k : A -> M T B) st st' (e : exception) :
  m st = (Throw e, st') -> (m ≫= k) st = (Throw e, st').
Proof. intros H; unfold mbind, M_bind; now rewrite H. Qed.

Lemma bind_Undefined {A B : Type} (m : M T A) (k : A -> M T B) st st' :
  m st = (Undefined, st') -> (m ≫= k) st = (Undefined, st').
Proof. intros H; unfold mbind, M_bind; now rewrite H. Qed.

(** *** Element access *)

Lemma vector_at_not_invalid_argument (c : list T) (i : Z) :
  vector_at c i <> Throw invalid_argument.
Proof. unfold vector_at; case_decide; discriminate. Qed.

Lemma at_multi_wrong_count t (i1 i2 : Z) (is_ : list Z) :
  length (i1 :: i2 :: is_) <> order t ->
  at_multi t i1 i2 is_ = Throw invalid_argument.
Proof.
  intros H; unfold at_multi.
  case_decide as Hn; [reflexivity|].
  exfalso; apply H; simpl in *; lia.
Qed.

Lemma fetch_Throw st p t (f : tensor_core T -> result nat) (e : exception) :
  st !! p = Some t -> f t = Throw e -> fetch p f st = (Throw e, st).
Proof.
  intros Hp Hf; unfold fetch.
  rewrite (bind_Ok _ _ _ _ _ (load_Some _ _ _ Hp)).
  unfold lift, read; now rewrite Hf.
Qed.

Lemma write_Throw st p t (f : tensor_core T -> result nat) (v : T) (e : exception) :
  st !! p = Some t -> f t = Throw e -> write p f v st = (Throw e, st).
Proof.
  intros Hp Hf; unfold write.
  rewrite (bind_Ok _ _ _ _ _ (load_Some _ _ _ Hp)).
  apply bind_Throw; unfold lift; now rewrite Hf.
Qed.

(** C1, amended: for every tensor and every tuple of two or more integral
    indices whose count differs from the order, [at] and the call operator
    throw [std::invalid_argument], on the reading and on the writing
    overload, and leave the store as it is.  A single index selects
    [at(size_type)], which never throws [std::invalid_argument], whatever
    the order: it is a bounds-checked lookup of that position. *)
Theorem at_wrong_count st p t (i1 i2 : Z) (is_ : list Z) :
  st !! p = Some t ->
  length (i1 :: i2 :: is_) <> order t ->
  (at_ t i1 (i2 :: is_) = Throw invalid_argument /\
   call t i1 (i2 :: is_) = Throw invalid_argument) /\
  (forall v : T,
     fetch p (fun t => at_ t i1 (i2 :: is_)) st = (Throw invalid_argument, st) /\
     fetch p (fun t => call t i1 (i2 :: is_)) st = (Throw invalid_argument, st) /\
     write p (fun t => at_ t i1 (i2 :: is_)) v st = (Throw invalid_argument, st) /\
     write p (fun t => call t i1 (i2 :: is_)) v st = (Throw invalid_argument, st)) /\
  (forall i : Z,
     at_ t i [] = vector_at (_container t) (to_size_t i) /\
     call t i [] = at_ t i [] /\
     at_ t i [] <> Throw invalid_argument).
Proof.
  intros Hp Hn.
  assert (E : at_ t i1 (i2 :: is_) = Throw invalid_argument)
    by now apply at_multi_wrong_count.
  split; [split; exact E|split].
  - intros v; repeat split;
      first [now apply fetch_Throw with t | now apply write_Throw with t].
  - intros i; repeat split; apply vector_at_not_invalid_argument.
Qed.

(** *** Scalar assignment *)

Lemma fill_n_all (c : list T) (v : T) :
  fill_n c (length c) v = replicate (length c) v.
Proof. induction c as [|x c IH]; simpl; [reflexivity|now rewrite IH]. Qed.

(** C7: the scalar assignment [t = v] returns (a reference to) [t] and
    leaves [t] with a container of the same size and each of whose elements
    is [v]; the extents and the strides stay. *)
Theorem assign_scalar_fills st (this : addr) t (v : T) :
  st !! this = Some t ->
  exists t' : tensor_core T,
    assign_scalar this v st = (Ok this, <[this := t']> st) /\
    length (_container t') = length (_container t) /\
    (forall i : nat, (i < length (_container t'))%nat -> _container t' !! i = Some v) /\
    Forall (fun x => x = v) (_container t') /\
    _extents t' = _extents t /\ _strides t' = _strides t.
Proof.
  intros Hp.
  exists (set_container t (replicate (length (_container t)) v)); split.
  - unfold assign_scalar.
    rewrite (bind_Ok _ _ _ _ _ (load_Some _ _ _ Hp)).
    now rewrite fill_n_all.
  - simpl; rewrite length_replicate; repeat split.
    + intros i Hi; now apply lookup_replicate_2.
    + now apply Forall_replicate.
Qed.

(** *** Einstein-index call *)

(** C9: called with placeholders, the tensor throws
    [std::invalid_argument] exactly when the number of placeholders differs
    from its order; otherwise the call returns the pair of a reference to
    the tensor and the tuple of the placeholders; in both cases the store,
    and with it the tensor, is unchanged. *)
Theorem call_index_spec st (this : addr) t (tag : index_type) (tags : list index_type) :
  st !! this = Some t ->
  (call_index this tag tags st = (Throw invalid_argument, st) <->
     length (tag :: tags) <> order t) /\
  (call_index this tag tags st = (Ok (this, tag :: tags), st) <->
     length (tag :: tags) = order t) /\
  snd (call_index this tag tags st) = st.
Proof.
  intros Hp; unfold call_index.
  rewrite (bind_Ok _ _ _ _ _ (load_Some _ _ _ Hp)).
  simpl length; case_decide as Hn.
  - repeat split; try discriminate; try reflexivity; intros; lia.
  - repeat split; try discriminate; try reflexivity; intros; lia.
Qed.

(** *** Swap *)

Lemma std_swap_spec {F : Type} (get : tensor_core T -> F)
    (set : tensor_core T -> F -> tensor_core T) st p q (a b : tensor_core T) :
  st !! p = Some a -> st !! q = Some b ->
  std_swap get set p q st =
  (Ok tt, <[q := set (if decide (p = q) then set a (get b) else b) (get a)]>
            (<[p := set a (get b)]> st)).
Proof.
  intros Ha Hb; unfold std_swap.
  rewrite (bind_Ok _ _ _ _ _ (load_Some _ _ _ Ha)).
  rewrite (bind_Ok _ _ _ _ _ (load_Some _ _ _ Hb)).
  unfold save at 1. unfold mbind at 1, M_bind at 1.
  unfold mbind, M_bind, load, save.
  destruct (decide (p = q)) as [->|Hne].
  - now rewrite lookup_insert_eq.
  - rewrite lookup_insert_ne by done. now rewrite Hb.
Qed.

Lemma swap_spec st p q a b :
  st !! p = Some a -> st !! q = Some b ->
  swap p q st = (Ok tt, <[q := a]> (<[p := b]> st)).
Proof.
  intros Ha Hb; unfold swap.
  rewrite (bind_Ok _ _ _ _ _ (std_swap_spec _ _ _ _ _ _ _ Ha Hb)).
  destruct (decide (p = q)) as [->|Hne].
  - assert (a = b) by congruence; subst b.
    erewrite bind_Ok; [|apply std_swap_spec; apply lookup_insert_eq].
    erewrite std_swap_spec; [|apply lookup_insert_eq..].
    f_equal. rewrite !insert_insert_eq. destruct a; simpl.
    repeat case_decide; done.
  - erewrite bind_Ok; [|apply std_swap_spec;
      [rewrite lookup_insert_ne by done; apply lookup_insert_eq|apply lookup_insert_eq]].
    erewrite std_swap_spec;
      [|rewrite lookup_insert_ne by done; apply lookup_insert_eq|apply lookup_insert_eq].
    rewrite !decide_False by done.
    f_equal. destruct a, b; simpl.
    apply map_eq; intros k.
    destruct (decide (k = q)) as [->|Hq]; [now rewrite !lookup_insert_eq|].
    destruct (decide (k = p)) as [->|Hp];
      repeat (rewrite lookup_insert_eq || rewrite lookup_insert_ne by done);
      reflexivity.
Qed.

Lemma swap_undefined st p q :
  st !! p = None \/ st !! q = None -> swap p q st = (Undefined, st).
Proof.
  intros H; unfold swap; apply bind_Undefined; unfold std_swap.
  destruct (st !! p) as [a|] eqn:Ha.
  - destruct H as [H|H]; [discriminate|].
    rewrite (bind_Ok _ _ _ _ _ (load_Some _ _ _ Ha)).
    apply bind_Undefined; now apply load_None.
  - apply bind_Undefined; now apply load_None.
Qed.

(** C8: [swap(lhs, rhs)] on two tensors returns, without an exception, and
    leaves [lhs] with the extents, the strides and the container that [rhs]
    had and [rhs] with those that [lhs] had; no other object changes; a
    second [swap(lhs, rhs)] restores the store. *)
Theorem swap_exchanges st (lhs rhs : addr) (a b : tensor_core T) :
  st !! lhs = Some a -> st !! rhs = Some b ->
  exists st' : store T,
    swap lhs rhs st = (Ok tt, st') /\
    (exists a' b' : tensor_core T,
       st' !! lhs = Some a' /\ st' !! rhs = Some b' /\
       _extents a' = _extents b /\ _strides a' = _strides b /\
       _container a' = _container b /\
       _extents b' = _extents a /\ _strides b' = _strides a /\
       _container b' = _container a) /\
    (forall p : addr, p <> lhs -> p <> rhs -> st' !! p = st !! p) /\
    swap lhs rhs st' = (Ok tt, st).
Proof.
  intros Ha Hb.
  assert (Hl : <[rhs:=a]> (<[lhs:=b]> st) !! lhs = Some b).
  { destruct (decide (lhs = rhs)) as [->|Hne].
    - rewrite lookup_insert_eq; congruence.
    - rewrite lookup_insert_ne by done; apply lookup_insert_eq. }
  assert (Hr : <[rhs:=a]> (<[lhs:=b]> st) !! rhs = Some a)
    by apply lookup_insert_eq.
  exists (<[rhs := a]> (<[lhs := b]> st)); split; [now apply swap_spec|].
  split; [exists b, a; repeat split; assumption|].
  split.
  - intros p Hpl Hpr; now rewrite !lookup_insert_ne by done.
  - rewrite (swap_spec _ _ _ _ _ Hl Hr); f_equal.
    apply map_eq; intros k.
    destruct (decide (k = rhs)) as [->|Hkr]; [now rewrite lookup_insert_eq|].
    rewrite lookup_insert_ne by done.
    destruct (decide (k = lhs)) as [->|Hkl]; [now rewrite lookup_insert_eq|].
    now rewrite !lookup_insert_ne by done.
Qed.

(** *** The invariant *)

Lemma to_size_t_nonneg (z : Z) : 0 <= to_size_t z.
Proof. unfold to_size_t; apply Z.mod_pos_bound; rewrite two_64; lia. Qed.




(** The two ways in which the constructor ends. *)
Lemma tensor_core_ctor_cases (is_ : list Z) :
  let e := map to_size_t is_ in
  let n := to_size_t (product e) in
  (n <= max_size /\
   tensor_core_ctor T0 is_
   = Ok {| _extents := e; _strides := to_strides e layout;
           _container := replicate (Z.to_nat n) T0 |}) \/
  (max_size < n /\ tensor_core_ctor T0 is_ = Throw length_error).
Proof.
  intros e n; unfold tensor_core_ctor, vector_ctor; fold e; fold n.
  case_decide; [left|right]; split; auto; lia.
Qed.



















End tensor_core_properties.

(** ** Concrete tensors

    Tensors of integers, value-initialised to zero, in the first-order
    layout, in a vector of 8-byte elements. *)

(** The tensors that the constructor builds for the shapes of the
    examples, and its failure on [size_type(-1)] elements. *)
Lemma tensor_core_ctor_examples :
  tensor_core_ctor (layout := first_order) (traits := vector_traits) 0 [2; 3]
  = Ok {| _extents := [2; 3]; _strides := [1; 2]; _container := replicate 6 0 |} /\
  tensor_core_ctor (layout := first_order) (traits := vector_traits) 0 [2; 3; 4]
  = Ok {| _extents := [2; 3; 4]; _strides := [1; 2; 6]; _container := replicate 24 0 |} /\
  tensor_core_ctor (layout := first_order) (traits := vector_traits) 0 [2; 2]
  = Ok {| _extents := [2; 2]; _strides := [1; 2]; _container := replicate 4 0 |} /\
  tensor_core_ctor (layout := first_order) (traits := vector_traits) 0 [3]
  = Ok {| _extents := [3]; _strides := [1]; _container := replicate 3 0 |} /\
  tensor_core_ctor (layout := first_order) (traits := vector_traits) 0 [3; 4; 2]
  = Ok {| _extents := [3; 4; 2]; _strides := [1; 3; 12]; _container := replicate 24 0 |} /\
  tensor_core_ctor (layout := last_order) (traits := vector_traits) 0 [3; 4; 2]
  = Ok {| _extents := [3; 4; 2]; _strides := [8; 2; 1]; _container := replicate 24 0 |} /\
  tensor_core_ctor (layout := first_order) (traits := vector_traits) 0 [-1]
  = Throw length_error.
Proof. repeat split; reflexivity. Qed.

(** C1, as stated, fails: a single index on a tensor of shape (2,3), whose
    order is 2, is a wrong count, and neither [at] nor the call operator
    throws: both refer to the element at position 1, which is read as 0. *)
Lemma at_single_index_on_order_2 :
  let t := {| _extents := [2; 3]; _strides := [1; 2]; _container := replicate 6 0 |} in
  tensor_core_ctor (layout := first_order) (traits := vector_traits) 0 [2; 3] = Ok t /\
  order t = 2%nat /\ length [1] <> order t /\
  at_ t 1 [] = Ok 1%nat /\ call t 1 [] = Ok 1%nat /\
  read t (at_ t 1 []) = Ok 0 /\
  at_ t 1 [] <> Throw invalid_argument /\ call t 1 [] <> Throw invalid_argument.
Proof.
  cbv zeta; repeat split; try reflexivity; vm_compute; discriminate.
Qed.

Lemma at_wrong_count_witness :
  let t := {| _extents := [2; 3; 4]; _strides := [1; 2; 6]; _container := replicate 24 0 |} in
  let st : store Z := <[0%nat := t]> ∅ in
  (st !! 0%nat = Some t /\ length [1; 2] <> order t) /\
  at_ t 1 [2] = Throw invalid_argument /\
  call t 1 [2] = Throw invalid_argument /\
  fetch 0%nat (fun t => at_ t 1 [2]) st = (Throw invalid_argument, st) /\
  write 0%nat (fun t => at_ t 1 [2]) 5 st = (Throw invalid_argument, st).
Proof.
  cbv zeta.
  assert (Hp : (<[0%nat := {| _extents := [2; 3; 4]; _strides := [1; 2; 6]; _container := replicate 24 0 |}]> ∅
                  : store Z) !! 0%nat
               = Some ({| _extents := [2; 3; 4]; _strides := [1; 2; 6]; _container := replicate 24 0 |}))
    by reflexivity.
  assert (Hn : length [1; 2] <> order ({| _extents := [2; 3; 4]; _strides := [1; 2; 6]; _container := replicate 24 0 |}))
    by (vm_compute; discriminate).
  destruct (at_wrong_count _ _ _ 1 2 [] Hp Hn) as ((Hat & Hcall) & Hrw & _).
  destruct (Hrw 5) as (Hfetch & _ & Hwrite & _).
  repeat split; assumption.
Defined.

Lemma assign_scalar_fills_witness :
  let t := {| _extents := [2; 2]; _strides := [1; 2]; _container := replicate 4 0 |} in
  let st : store Z := <[0%nat := t]> ∅ in
  st !! 0%nat = Some t /\
  exists t' : tensor_core Z,
    assign_scalar 0%nat 7 st = (Ok 0%nat, <[0%nat := t']> st) /\
    length (_container t') = 4%nat /\
    Forall (fun x => x = 7) (_container t').
Proof.
  cbv zeta.
  assert (Hp : (<[0%nat := {| _extents := [2; 2]; _strides := [1; 2]; _container := replicate 4 0 |}]> ∅
                  : store Z) !! 0%nat
               = Some ({| _extents := [2; 2]; _strides := [1; 2]; _container := replicate 4 0 |}))
    by reflexivity.
  split; [exact Hp|].
  destruct (assign_scalar_fills _ _ _ 7 Hp) as (t' & Hrun & Hlen & _ & Hall & _).
  exists t'; repeat split; assumption.
Defined.

Lemma call_index_spec_witness :
  let t := {| _extents := [2; 3]; _strides := [1; 2]; _container := replicate 6 0 |} in
  let st : store Z := <[0%nat := t]> ∅ in
  st !! 0%nat = Some t /\
  call_index 0%nat (index 1) [index 2] st = (Ok (0%nat, [index 1; index 2]), st) /\
  call_index 0%nat (index 1) [] st = (Throw invalid_argument, st).
Proof.
  cbv zeta.
  assert (Hp : (<[0%nat := {| _extents := [2; 3]; _strides := [1; 2]; _container := replicate 6 0 |}]> ∅
                  : store Z) !! 0%nat
               = Some ({| _extents := [2; 3]; _strides := [1; 2]; _container := replicate 6 0 |}))
    by reflexivity.
  split; [exact Hp|split].
  - destruct (call_index_spec _ _ _ (index 1) [index 2] Hp) as (_ & Hok & _).
    apply Hok; reflexivity.
  - destruct (call_index_spec _ _ _ (index 1) [] Hp) as (Hthrow & _ & _).
    apply Hthrow; vm_compute; discriminate.
Defined.

Lemma swap_exchanges_witness :
  let a := {| _extents := [2; 2]; _strides := [1; 2]; _container := replicate 4 0 |} in
  let b := {| _extents := [3]; _strides := [1]; _container := replicate 3 0 |} in
  let st : store Z := <[1%nat := b]> (<[0%nat := a]> ∅) in
  (st !! 0%nat = Some a /\ st !! 1%nat = Some b) /\
  exists st' : store Z,
    swap 0%nat 1%nat st = (Ok tt, st') /\
    swap 0%nat 1%nat st' = (Ok tt, st).
Proof.
  cbv zeta.
  assert (Ha : (<[1%nat := {| _extents := [3]; _strides := [1]; _container := replicate 3 0 |}]>
                  (<[0%nat := {| _extents := [2; 2]; _strides := [1; 2]; _container := replicate 4 0 |}]> ∅)
                  : store Z) !! 0%nat
               = Some ({| _extents := [2; 2]; _strides := [1; 2]; _container := replicate 4 0 |}))
    by reflexivity.
  assert (Hb : (<[1%nat := {| _extents := [3]; _strides := [1]; _container := replicate 3 0 |}]>
                  (<[0%nat := {| _extents := [2; 2]; _strides := [1; 2]; _container := replicate 4 0 |}]> ∅)
                  : store Z) !! 1%nat
               = Some ({| _extents := [3]; _strides := [1]; _container := replicate 3 0 |}))
    by reflexivity.
  split; [split; assumption|].
  destruct (swap_exchanges _ 0%nat 1%nat _ _ Ha Hb) as (st' & Hrun & _ & _ & Hback).
  exists st'; split; assumption.
Defined.



(** * Further properties of span.hpp *)

Lemma span3_Ok_inv (f s l : Z) (r : span) :
  span3 f s l = Ok r -> r = {| first_ := f; last_ := l; step_ := s |}.
Proof.
  destruct (span3_cases f s l) as [(_ & _ & E)|(_ & E)]; rewrite E;
    [discriminate|now intros [= <-]].
Qed.

Lemma span_call_Ok_inv (a b r : span) :
  span_call a b = Ok r ->
  r = {| first_ := to_ptrdiff (first_ b * step_ a + first_ a);
         last_ := to_ptrdiff (last_ b * step_ a + first_ a);
         step_ := to_ptrdiff (step_ a * step_ b) |}.
Proof. rewrite span_call_unfold; apply span3_Ok_inv. Qed.

(** The index map of a span, without the intermediate conversions. *)
Lemma span_index_eq (s : span) (idx : Z) :
  span_index s idx = to_ptrdiff (first_ s + idx * step_ s).
Proof.
  unfold span_index; apply to_ptrdiff_congr.
  rewrite to_size_t_mod.
  apply add_congr; [apply to_size_t_mod|].
  rewrite to_size_t_mod.
  apply mul_congr; [reflexivity|apply to_size_t_mod].
Qed.

(** X1: the two-argument constructor [span(f, l)] never throws, whatever
    the order of the bounds: it yields the span of [f], step 1 and [l],
    which satisfies the construction invariant, and the unit step makes its
    index map the translation by [f] wherever that does not overflow. *)
Theorem span2_never_throws (f l : Z) :
  span2 f l = Ok {| first_ := f; last_ := l; step_ := 1 |} /\
  span_inv {| first_ := f; last_ := l; step_ := 1 |} /\
  (forall idx : Z, in_ptrdiff (f + idx) ->
     span_index {| first_ := f; last_ := l; step_ := 1 |} idx = f + idx).
Proof.
  split; [apply span3_ok; left; lia|split; [left; simpl; lia|]].
  intros idx H; rewrite span_index_eq; simpl.
  rewrite Z.mul_1_r; now apply to_ptrdiff_id.
Qed.

(** X2: [operator==] decides equality of the three members, so it is an
    equivalence that tells apart spans that differ in any member, and
    [operator!=] is its negation; a copy compares equal to its original. *)
Theorem span_eqb_spec (a b : span) :
  (span_eqb a b = true <-> a = b) /\
  (span_neqb a b = true <-> a <> b) /\
  span_eqb (span_copy a) a = true /\
  span_eqb a a = true /\
  span_eqb a b = span_eqb b a /\
  (forall c : span, span_eqb a b = true -> span_eqb b c = true -> span_eqb a c = true).
Proof.
  assert (H : forall x y : span, span_eqb x y = true <-> x = y).
  { intros [f1 l1 s1] [f2 l2 s2]; unfold span_eqb; simpl.
    rewrite !andb_true_iff, !Z.eqb_eq; split.
    - intros [[-> ->] ->]; reflexivity.
    - intros [= -> -> ->]; auto. }
  split; [apply H|split; [|split; [apply H; now destruct a|split; [now apply H|split]]]].
  - unfold span_neqb; rewrite negb_true_iff, <- not_true_iff_false.
    now rewrite H.
  - destruct (span_eqb a b) eqn:E.
    + apply H in E; subst b; symmetry; now apply H.
    + symmetry; apply not_true_iff_false; intros E'.
      apply H in E'; subst b.
      apply not_true_iff_false in E; apply E; now apply H.
  - intros c Hab Hbc; apply H in Hab, Hbc; subst; now apply H.
Qed.

(** X3: wherever [first + idx*step] is representable in [std::ptrdiff_t],
    [operator[]] returns exactly that value, also for a negative step,
    although the product is computed in unsigned arithmetic; [last] plays
    no part, so that an index past the end of the range is not rejected. *)
Theorem span_index_exact (s : span) (idx : Z) :
  in_ptrdiff (first_ s + idx * step_ s) ->
  span_index s idx = first_ s + idx * step_ s /\
  (forall l : Z,
     span_index {| first_ := first_ s; last_ := l; step_ := step_ s |} idx
     = span_index s idx).
Proof.
  intros H; split; [rewrite span_index_eq; now apply to_ptrdiff_id|].
  intros l; now rewrite !span_index_eq.
Qed.

Lemma span_index_exact_witness :
  let s := {| first_ := 10; last_ := 0; step_ := -2 |} in
  in_ptrdiff (first_ s + 3 * step_ s) /\ span_index s 3 = 4 /\
  span_index s 7 = -4.
Proof.
  cbv zeta; split; [vm_compute; split; discriminate|split].
  - apply (span_index_exact {| first_ := 10; last_ := 0; step_ := -2 |} 3).
    vm_compute; split; discriminate.
  - apply (span_index_exact {| first_ := 10; last_ := 0; step_ := -2 |} 7).
    vm_compute; split; discriminate.
Defined.

(** X4: the index map of a composition is the composition of the index
    maps: whenever [a(b)] is constructed, [a(b)[i] == a[b[i]]] for every
    index [i], overflow included. *)
Theorem span_call_pointwise (a b r : span) (idx : Z) :
  span_call a b = Ok r ->
  span_index r idx = span_index a (to_size_t (span_index b idx)).
Proof.
  intros Hr; apply span_call_Ok_inv in Hr; subst r.
  rewrite !span_index_eq; simpl; apply to_ptrdiff_congr.
  transitivity (((first_ b * step_ a + first_ a) + idx * (step_ a * step_ b)) mod 2 ^ 64).
  { apply add_congr; [apply to_ptrdiff_mod|].
    apply mul_congr; [reflexivity|apply to_ptrdiff_mod]. }
  transitivity ((first_ a + (first_ b + idx * step_ b) * step_ a) mod 2 ^ 64).
  { f_equal; ring. }
  apply add_congr; [reflexivity|].
  apply mul_congr; [|reflexivity].
  now rewrite to_size_t_mod, to_ptrdiff_mod.
Qed.

Lemma span_call_pointwise_witness :
  let a := {| first_ := 1; last_ := 10; step_ := 2 |} in
  let b := {| first_ := 1; last_ := 3; step_ := 1 |} in
  let r := {| first_ := 3; last_ := 7; step_ := 2 |} in
  span_call a b = Ok r /\
  span_index r 1 = span_index a (to_size_t (span_index b 1)).
Proof.
  cbv zeta; split; [reflexivity|].
  apply (span_call_pointwise {| first_ := 1; last_ := 10; step_ := 2 |}
           {| first_ := 1; last_ := 3; step_ := 1 |}).
  reflexivity.
Defined.

(** X5: composition is associative: when [a(b)] and [b(c)] are
    constructed, [(a(b))(c)] and [a(b(c))] throw together or are the same
    span. *)
Theorem span_call_assoc (a b c ab bc : span) :
  span_call a b = Ok ab -> span_call b c = Ok bc ->
  span_call ab c = span_call a bc.
Proof.
  intros Hab Hbc.
  apply span_call_Ok_inv in Hab, Hbc; subst ab bc.
  rewrite !span_call_unfold; simpl.
  f_equal; apply to_ptrdiff_congr.
  - transitivity ((first_ c * (step_ a * step_ b) + (first_ b * step_ a + first_ a)) mod 2 ^ 64).
    { apply add_congr; [|apply to_ptrdiff_mod].
      apply mul_congr; [reflexivity|apply to_ptrdiff_mod]. }
    transitivity (((first_ c * step_ b + first_ b) * step_ a + first_ a) mod 2 ^ 64).
    { f_equal; ring. }
    apply add_congr; [|reflexivity].
    apply mul_congr; [|reflexivity].
    symmetry; apply to_ptrdiff_mod.
  - transitivity ((step_ a * step_ b * step_ c) mod 2 ^ 64).
    { apply mul_congr; [apply to_ptrdiff_mod|reflexivity]. }
    rewrite <- Z.mul_assoc.
    apply mul_congr; [reflexivity|].
    symmetry; apply to_ptrdiff_mod.
  - transitivity ((last_ c * (step_ a * step_ b) + (first_ b * step_ a + first_ a)) mod 2 ^ 64).
    { apply add_congr; [|apply to_ptrdiff_mod].
      apply mul_congr; [reflexivity|apply to_ptrdiff_mod]. }
    transitivity (((last_ c * step_ b + first_ b) * step_ a + first_ a) mod 2 ^ 64).
    { f_equal; ring. }
    apply add_congr; [|reflexivity].
    apply mul_congr; [|reflexivity].
    symmetry; apply to_ptrdiff_mod.
Qed.

Lemma span_call_assoc_witness :
  let a := {| first_ := 1; last_ := 20; step_ := 2 |} in
  let b := {| first_ := 1; last_ := 9; step_ := 3 |} in
  let c := {| first_ := 0; last_ := 2; step_ := 1 |} in
  span_call a b = Ok {| first_ := 3; last_ := 19; step_ := 6 |} /\
  span_call b c = Ok {| first_ := 1; last_ := 7; step_ := 3 |} /\
  span_call {| first_ := 3; last_ := 19; step_ := 6 |} c
  = span_call a {| first_ := 1; last_ := 7; step_ := 3 |}.
Proof.
  cbv zeta; split; [reflexivity|split; [reflexivity|]].
  apply (span_call_assoc {| first_ := 1; last_ := 20; step_ := 2 |}
           {| first_ := 1; last_ := 9; step_ := 3 |}
           {| first_ := 0; last_ := 2; step_ := 1 |}); reflexivity.
Defined.

(** X6: a span with [first == 0] and [step == 1], such as the full span
    [span()] or [span(l)], is a left unit of composition whatever its
    [last]: composed with any span [b] it gives [b] back, so a composition
    does not clip [b] to the range of the outer span.  On the right, the
    full span keeps [first] and [step] of the outer span, and the
    composition does not throw. *)
Theorem span_call_unit (e b : span) :
  first_ e = 0 -> step_ e = 1 -> span_wf b -> span_inv b ->
  span_call e b = Ok b /\
  span_call span0 b = Ok b /\
  exists r : span, span_call b span0 = Ok r /\ first_ r = first_ b /\ step_ r = step_ b.
Proof.
  intros Hf Hs (Wf & Wl & Ws) Hb.
  assert (U : forall u : span, first_ u = 0 -> step_ u = 1 -> span_call u b = Ok b).
  { intros u Uf Us; rewrite span_call_unfold, Uf, Us.
    rewrite !Z.mul_1_r, !Z.add_0_r, Z.mul_1_l, !to_ptrdiff_id by assumption.
    destruct b; now apply span3_ok. }
  split; [now apply U|split; [now apply U|]].
  eexists; split.
  - apply span_call_ok; [assumption|left; vm_compute; discriminate|].
    intros Hb0 _; change (step_ span0) with 1.
    rewrite Z.mul_1_r, to_ptrdiff_id; assumption.
  - simpl; change (first_ span0) with 0; change (step_ span0) with 1.
    rewrite Z.mul_0_l, Z.add_0_l, Z.mul_1_r, !to_ptrdiff_id by assumption.
    split; reflexivity.
Qed.

Lemma span_call_unit_witness :
  let e := {| first_ := 0; last_ := 3; step_ := 1 |} in
  let b := {| first_ := 5; last_ := 10; step_ := 1 |} in
  (first_ e = 0 /\ step_ e = 1 /\ span_wf b /\ span_inv b) /\
  span_call e b = Ok b.
Proof.
  cbv zeta.
  assert (W : span_wf {| first_ := 5; last_ := 10; step_ := 1 |})
    by (repeat split; vm_compute; discriminate).
  assert (I : span_inv {| first_ := 5; last_ := 10; step_ := 1 |})
    by (left; simpl; lia).
  split; [repeat split; try assumption; apply W|].
  exact (proj1 (span_call_unit {| first_ := 0; last_ := 3; step_ := 1 |}
                  {| first_ := 5; last_ := 10; step_ := 1 |} eq_refl eq_refl W I)).
Defined.

(** X7: [ran] converts its integral arguments to [std::ptrdiff_t] before
    it constructs: the result is always a well-formed span, [ran(f, l)]
    never throws, [ran(f, s, l)] throws exactly when the converted step is
    zero over distinct converted bounds, and on arguments that are
    representable both agree with the constructors. *)
Theorem ran_spec (f s l : Z) :
  ran2 f l = Ok {| first_ := to_ptrdiff f; last_ := to_ptrdiff l; step_ := 1 |} /\
  (ran3 f s l = Throw runtime_error <->
     to_ptrdiff s = 0 /\ to_ptrdiff f <> to_ptrdiff l) /\
  (forall r : span, ran2 f l = Ok r \/ ran3 f s l = Ok r -> span_wf r /\ span_inv r) /\
  (in_ptrdiff f -> in_ptrdiff s -> in_ptrdiff l ->
     ran2 f l = span2 f l /\ ran3 f s l = span3 f s l).
Proof.
  assert (E2 : ran2 f l = Ok {| first_ := to_ptrdiff f; last_ := to_ptrdiff l; step_ := 1 |})
    by (apply span3_ok; left; lia).
  split; [exact E2|split; [|split]].
  - unfold ran3.
    destruct (span3_cases (to_ptrdiff f) (to_ptrdiff s) (to_ptrdiff l))
      as [(Hs & Hf & E)|(H & E)]; rewrite E; split; auto.
    + discriminate.
    + intros [Hs Hf]; destruct H; contradiction.
  - intros r [Hr|Hr].
    + rewrite E2 in Hr; injection Hr as <-; split.
      * repeat split; try apply to_ptrdiff_range; vm_compute; discriminate.
      * left; simpl; lia.
    + split; [|now apply span3_inv in Hr].
      apply span3_Ok_inv in Hr; subst r; repeat split; apply to_ptrdiff_range.
  - intros Hf Hs Hl; unfold ran2, ran3.
    now rewrite !to_ptrdiff_id by assumption.
Qed.

Lemma ran_spec_witness :
  (in_ptrdiff 1 /\ in_ptrdiff 2 /\ in_ptrdiff 9) /\
  ran2 1 9 = span2 1 9 /\ ran3 1 2 9 = span3 1 2 9 /\
  ran3 (-1) 0 SIZE_MAX = Ok {| first_ := -1; last_ := -1; step_ := 0 |}.
Proof.
  assert (H1 : in_ptrdiff 1) by (vm_compute; split; discriminate).
  assert (H2 : in_ptrdiff 2) by (vm_compute; split; discriminate).
  assert (H9 : in_ptrdiff 9) by (vm_compute; split; discriminate).
  destruct (ran_spec 1 2 9) as (_ & _ & _ & H).
  destruct (H H1 H2 H9) as [E2 E3].
  split; [split; [|split]; assumption|].
  split; [exact E2|split; [exact E3|reflexivity]].
Defined.

(** ** Printing *)

Lemma free_of_pretty_N_go (c : Ascii.ascii) (x : N) (s : string) :
  (forall d : N, pretty_N_char d <> c) -> free_of c s -> free_of c (pretty_N_go x s).
Proof.
  intros Hc; revert s.
  induction (N.lt_wf_0 x) as [x _ IH]; intros s Hs.
  destruct (N.eq_dec x 0%N) as [->|Hx]; [now rewrite pretty_N_go_0|].
  rewrite pretty_N_go_step by lia.
  apply IH; [apply N.div_lt; lia|].
  split; [apply Hc|exact Hs].
Qed.

Lemma free_of_pretty_Z (c : Ascii.ascii) (z : Z) :
  (forall d : N, pretty_N_char d <> c) -> c <> "-"%char -> free_of c (pretty z).
Proof.
  intros Hc Hdash.
  assert (HN : forall p : positive, free_of c (pretty (N.pos p))).
  { intros p; unfold pretty, pretty_N.
    destruct (decide (N.pos p = 0%N)); [discriminate|].
    now apply free_of_pretty_N_go. }
  destruct z as [|p|p]; unfold pretty, pretty_Z.
  - split; [apply (Hc 0%N)|exact I].
  - apply HN.
  - split; [congruence|apply HN].
Qed.

Lemma digits_not_colon (d : N) : pretty_N_char d <> ":"%char.
Proof. unfold pretty_N_char; repeat case_match; discriminate. Qed.

Lemma digits_not_bracket (d : N) : pretty_N_char d <> "]"%char.
Proof. unfold pretty_N_char; repeat case_match; discriminate. Qed.

(** Two texts that agree up to and after the first [c] agree in both
    parts. *)
Lemma append_split (c : Ascii.ascii) (s1 s2 r1 r2 : string) :
  free_of c s1 -> free_of c s2 ->
  s1 +:+ String c r1 = s2 +:+ String c r2 -> s1 = s2 /\ r1 = r2.
Proof.
  revert s2; induction s1 as [|x s1 IH]; intros [|y s2]; simpl.
  - intros _ _ [= ->]; auto.
  - intros _ [Hy _] [= <- _]; contradiction.
  - intros [Hx _] _ [= -> _]; contradiction.
  - intros [_ H1] [_ H2] [= -> E].
    destruct (IH s2 H1 H2 E) as [-> ->]; auto.
Qed.

Lemma append_cancel_l (out s1 s2 : string) : out +:+ s1 = out +:+ s2 -> s1 = s2.
Proof. induction out as [|x out IH]; simpl; [auto|intros [= E]; auto]. Qed.

(** X8: printing a span appends to what the stream holds the text
    [[first:step:last]], with the three members in decimal, and a line
    end; and the printed text determines the span: two different spans are
    never printed alike. *)
Theorem span_print_inj (out : string) (a b : span) :
  span_print out a
  = out +:+ "[" +:+ pretty (first_ a) +:+ ":" +:+ pretty (step_ a) +:+ ":"
        +:+ pretty (last_ a) +:+ "]" +:+ String (ascii_of_nat 10) "" /\
  (a <> b -> span_print out a <> span_print out b).
Proof.
  split; [reflexivity|].
  intros Hab E; apply Hab; clear Hab.
  apply append_cancel_l in E; unfold span_text in E; simpl in E.
  injection E as E.
  apply append_split in E as [Ef E];
    [|apply free_of_pretty_Z; [apply digits_not_colon|discriminate]..].
  apply append_split in E as [Es E];
    [|apply free_of_pretty_Z; [apply digits_not_colon|discriminate]..].
  apply append_split in E as [El _];
    [|apply free_of_pretty_Z; [apply digits_not_bracket|discriminate]..].
  apply (inj pretty) in Ef, Es, El.
  destruct a, b; simpl in *; congruence.
Qed.

Lemma span_print_inj_witness :
  let a := {| first_ := 1; last_ := 21; step_ := -1 |} in
  let b := {| first_ := 1; last_ := 1; step_ := 12 |} in
  a <> b /\
  span_print "out" a = "out[1:-1:21]" +:+ String (ascii_of_nat 10) "" /\
  span_print "out" b = "out[1:12:1]" +:+ String (ascii_of_nat 10) "" /\
  span_print "out" a <> span_print "out" b.
Proof.
  cbv zeta.
  assert (H : {| first_ := 1; last_ := 21; step_ := -1 |}
              <> {| first_ := 1; last_ := 1; step_ := 12 |}) by discriminate.
  destruct (span_print_inj "out" {| first_ := 1; last_ := 21; step_ := -1 |}
              {| first_ := 1; last_ := 1; step_ := 12 |}) as (Ea & Hne).
  destruct (span_print_inj "out" {| first_ := 1; last_ := 1; step_ := 12 |}
              {| first_ := 1; last_ := 21; step_ := -1 |}) as (Eb & _).
  split; [exact H|split; [|split; [|exact (Hne H)]]].
  - rewrite Ea; reflexivity.
  - rewrite Eb; reflexivity.
Defined.

(** * Further properties of the tensor core *)

Section tensor_core_more.
Context {T : Type}.
Context (T0 : T) {layout : layout_type} {traits : container_traits}.

Implicit Types (st : store T) (t : tensor_core T) (p q : addr).

(** ** Accessors and the shape *)

Lemma vector_at_Ok (c : list T) (i : Z) (n : nat) :
  0 <= i -> vector_at c i = Ok n -> (n < length c)%nat /\ n = Z.to_nat i.
Proof.
  intros Hi; unfold vector_at; case_decide as H; [|discriminate].
  intros [= <-]; split; [lia|reflexivity].
Qed.

Lemma vector_index_Ok (c : list T) (i : Z) (n : nat) :
  0 <= i -> vector_index c i = Ok n -> (n < length c)%nat /\ n = Z.to_nat i.
Proof.
  intros Hi; unfold vector_index; case_decide as H; [|discriminate].
  intros [= <-]; split; [lia|reflexivity].
Qed.

(** The positions that the accessors hand out lie in the container. *)
Lemma at_in_bounds t (i1 : Z) (is_ : list Z) (n : nat) :
  at_ t i1 is_ = Ok n -> (n < length (_container t))%nat.
Proof.
  destruct is_ as [|i2 is_]; simpl.
  - intros Hv; apply vector_at_Ok in Hv as [Hn _]; [exact Hn|apply to_size_t_nonneg].
  - unfold at_multi; case_decide; [discriminate|].
    intros Hv; apply vector_at_Ok in Hv as [Hn _]; [exact Hn|apply to_size_t_nonneg].
Qed.

Lemma subscript_in_bounds t (i : Z) (n : nat) :
  subscript t i = Ok n -> (n < length (_container t))%nat.
Proof.
  intros Hv; apply vector_index_Ok in Hv as [Hn _]; [exact Hn|apply to_size_t_nonneg].
Qed.

(** They depend on the container through its size only. *)
Lemma at_set_container t (c : list T) (i1 : Z) (is_ : list Z) :
  length c = length (_container t) ->
  at_ (set_container t c) i1 is_ = at_ t i1 is_.
Proof.
  intros Hc; destruct is_ as [|i2 is_]; simpl;
    unfold at_single, at_multi, vector_at, order, rank; simpl; now rewrite Hc.
Qed.

Lemma subscript_set_container t (c : list T) (i : Z) :
  length c = length (_container t) ->
  subscript (set_container t c) i = subscript t i.
Proof. intros Hc; unfold subscript, vector_index; simpl; now rewrite Hc. Qed.

(** ** How reads and writes end *)

Lemma write_inv st st' p (f : tensor_core T -> result nat) (v : T) (r : result unit) :
  write p f v st = (r, st') ->
  (st !! p = None /\ r = Undefined /\ st' = st) \/
  (exists t, st !! p = Some t /\
     ((exists pos, f t = Ok pos /\ r = Ok tt /\
         st' = <[p := set_container t (<[pos := v]> (_container t))]> st) \/
      (exists e, f t = Throw e /\ r = Throw e /\ st' = st) \/
      (f t = Undefined /\ r = Undefined /\ st' = st))).
Proof.
  unfold write, mbind, M_bind, load, lift, save.
  destruct (st !! p) as [t|]; [|intros [= <- <-]; now left].
  intros H; right; exists t; split; [reflexivity|].
  destruct (f t) as [pos|e|]; injection H as <- <-; eauto 10.
Qed.

Lemma fetch_inv st st' p (f : tensor_core T -> result nat) (r : result T) :
  fetch p f st = (r, st') ->
  st' = st /\
  ((st !! p = None /\ r = Undefined) \/
   (exists t, st !! p = Some t /\ r = read t (f t))).
Proof.
  unfold fetch, mbind, M_bind, load, lift.
  destruct (st !! p) as [t|]; intros [= <- <-]; split; eauto.
Qed.

(** X9: [at(i)] with a single index and [t(i)] refer to position [i]
    exactly when [i], converted to [size_type], is below [size()], and
    throw [std::out_of_range] otherwise; a negative index is out of range
    rather than counted from the end; [operator[]] returns the same
    position where [at] returns one, and is undefined exactly where [at]
    throws. *)
Theorem at_single_bounds t (i : Z) :
  (forall n : nat,
     at_ t i [] = Ok n <-> to_size_t i < size t /\ n = Z.to_nat (to_size_t i)) /\
  (at_ t i [] = Throw out_of_range <-> size t <= to_size_t i) /\
  call t i [] = at_ t i [] /\
  (forall n : nat, subscript t i = Ok n <-> at_ t i [] = Ok n) /\
  (subscript t i = Undefined <-> at_ t i [] = Throw out_of_range) /\
  (in_ptrdiff i -> i < 0 -> size t <= PTRDIFF_MAX -> at_ t i [] = Throw out_of_range).
Proof.
  assert (Hneg : in_ptrdiff i -> i < 0 -> size t <= PTRDIFF_MAX ->
                 ~ to_size_t i < Z.of_nat (length (_container t))).
  { unfold size, in_ptrdiff, to_size_t, PTRDIFF_MIN, PTRDIFF_MAX.
    rewrite two_63; intros [Hlo Hhi] Hi Hsize.
    replace (i mod 2 ^ 64) with (i + 2 ^ 64); [rewrite two_64; lia|].
    apply Z.mod_unique with (-1); rewrite two_64; lia. }
  unfold call, at_, at_single, subscript, vector_at, vector_index.
  fold (size t) in *.
  destruct (decide (to_size_t i < size t)) as [Hlt|Hge].
  - split; [|split; [|split; [reflexivity|split; [|split]]]].
    + intros n; split; [intros [= <-]; auto|intros [_ ->]; reflexivity].
    + split; [discriminate|lia].
    + intros n; reflexivity.
    + split; discriminate.
    + intros H1 H2 H3; destruct (Hneg H1 H2 H3 Hlt).
  - split; [|split; [|split; [reflexivity|split; [|split]]]].
    + intros n; split; [discriminate|intros [H _]; contradiction].
    + split; [lia|reflexivity].
    + intros n; split; discriminate.
    + split; reflexivity.
    + reflexivity.
Qed.

(** X10: an element written through an accessor is read back through the
    same accessor with the same indices: [t.at(is...) = v] followed by
    [t.at(is...)] yields [v], and so for [t(is...)] and [t[i]]. *)
Theorem write_then_fetch st st' p (i1 : Z) (is_ : list Z) (v : T) :
  (write p (fun t => at_ t i1 is_) v st = (Ok tt, st') ->
     fetch p (fun t => at_ t i1 is_) st' = (Ok v, st')) /\
  (write p (fun t => call t i1 is_) v st = (Ok tt, st') ->
     fetch p (fun t => call t i1 is_) st' = (Ok v, st')) /\
  (write p (fun t => subscript t i1) v st = (Ok tt, st') ->
     fetch p (fun t => subscript t i1) st' = (Ok v, st')).
Proof.
  assert (H : forall f : tensor_core T -> result nat,
             (forall t n, f t = Ok n -> (n < length (_container t))%nat) ->
             (forall t c, length c = length (_container t) -> f (set_container t c) = f t) ->
             write p f v st = (Ok tt, st') -> fetch p f st' = (Ok v, st')).
  { intros f Hbound Hshape Hw.
    apply write_inv in Hw as [(_ & [=] & _)|(t & Hp & [(pos & Hf & _ & ->)|[(e & _ & [=] & _)|(_ & [=] & _)]])].
    unfold fetch; erewrite bind_Ok; [|apply load_Some, lookup_insert_eq].
    unfold lift, read.
    rewrite Hshape, Hf by apply length_insert; simpl.
    now rewrite list_lookup_insert_eq by eauto. }
  split; [|split]; apply H;
    eauto using at_in_bounds, subscript_in_bounds, at_set_container, subscript_set_container.
Qed.

(** X11: a write through an accessor changes one element of one tensor:
    the other tensors, the extents, the strides and the size of the
    tensor, and its elements at the other positions are as before. *)
Theorem write_frame st st' p (f : tensor_core T -> result nat) (v : T) :
  write p f v st = (Ok tt, st') ->
  (forall q, q <> p -> st' !! q = st !! q) /\
  exists t t' (pos : nat),
    st !! p = Some t /\ st' !! p = Some t' /\ f t = Ok pos /\
    _extents t' = _extents t /\ _strides t' = _strides t /\ size t' = size t /\
    (forall j : nat, j <> pos -> _container t' !! j = _container t !! j) /\
    ((pos < length (_container t))%nat -> _container t' !! pos = Some v).
Proof.
  intros Hw.
  apply write_inv in Hw as [(_ & [=] & _)|(t & Hp & [(pos & Hf & _ & ->)|[(e & _ & [=] & _)|(_ & [=] & _)]])].
  split; [intros q Hq; now rewrite lookup_insert_ne|].
  exists t, (set_container t (<[pos := v]> (_container t))), pos.
  rewrite lookup_insert_eq; unfold size; simpl; rewrite length_insert.
  repeat split; auto.
  - intros j Hj; now rewrite list_lookup_insert_ne.
  - intros Hpos; now rewrite list_lookup_insert_eq.
Qed.

(** ** Copy assignment *)

Lemma assign_copy_spec st (this arg : addr) (t src : tensor_core T) :
  st !! this = Some t -> st !! arg = Some src ->
  assign_copy this arg st = (Ok this, <[this := src]> st).
Proof.
  intros Ht Hs; unfold assign_copy.
  rewrite (bind_Ok _ _ _ _ _ (load_Some _ _ _ Hs)).
  set (o := fresh (dom st)).
  assert (Ho : st !! o = None) by (apply not_elem_of_dom, is_fresh).
  assert (Hne : this <> o) by (intros ->; congruence).
  erewrite bind_Ok; [|reflexivity]; fold o.
  erewrite bind_Ok;
    [|apply swap_spec; [rewrite lookup_insert_ne by done; exact Ht|apply lookup_insert_eq]].
  unfold mbind at 1, M_bind at 1, free at 1.
  rewrite lookup_insert_eq; unfold mbind, M_bind, mret, M_ret; f_equal.
  apply map_eq; intros k.
  destruct (decide (k = o)) as [->|Hk].
  - rewrite lookup_delete_eq, lookup_insert_ne by done; now rewrite Ho.
  - rewrite lookup_delete_ne, lookup_insert_ne by done.
    destruct (decide (k = this)) as [->|Hk'].
    + now rewrite !lookup_insert_eq.
    + now rewrite !lookup_insert_ne by done.
Qed.

(** X12: the copy assignment [t = u] returns (a reference to) [t] without
    an exception and leaves [t] equal to [u]; [u] and every other tensor
    are as before, the by-value parameter is gone when the call is over,
    and a self-assignment [t = t] changes nothing. *)
Theorem assign_copy_value st (this arg : addr) (t src : tensor_core T) :
  st !! this = Some t -> st !! arg = Some src ->
  exists st' : store T,
    assign_copy this arg st = (Ok this, st') /\
    st' !! this = Some src /\
    (forall q, q <> this -> st' !! q = st !! q) /\
    dom st' = dom st /\
    (arg = this -> st' = st).
Proof.
  intros Ht Hs; exists (<[this := src]> st).
  split; [now apply assign_copy_spec with t|].
  split; [apply lookup_insert_eq|].
  split; [intros q Hq; now rewrite lookup_insert_ne|].
  split.
  - rewrite dom_insert_L.
    apply subseteq_union_1_L, singleton_subseteq_l, elem_of_dom; eauto.
  - intros ->; apply insert_id; congruence.
Qed.

(** ** Swap *)

(** X13: [swap] is symmetric in its arguments, and swapping a tensor with
    itself leaves the store as it is. *)
Theorem swap_symmetric st (lhs rhs : addr) :
  swap lhs rhs st = swap rhs lhs st /\
  (forall t, st !! lhs = Some t -> swap lhs lhs st = (Ok tt, st)).
Proof.
  split.
  - destruct (st !! lhs) as [a|] eqn:Ha; [destruct (st !! rhs) as [b|] eqn:Hb|].
    + rewrite (swap_spec _ _ _ _ _ Ha Hb), (swap_spec _ _ _ _ _ Hb Ha); f_equal.
      destruct (decide (lhs = rhs)) as [->|Hne]; [congruence|].
      now apply insert_insert_ne.
    + rewrite !swap_undefined; auto.
    + rewrite !swap_undefined; auto.
  - intros t Ht; rewrite (swap_spec _ _ _ _ _ Ht Ht); f_equal.
    rewrite insert_insert_eq; now apply insert_id.
Qed.

(** ** Scalar assignment, then reads *)

(** X14: after the scalar assignment [t = v], every read of [t] that
    returns, through whichever accessor and indices, returns [v] and
    leaves the store; and of two scalar assignments in a row the second
    one decides the outcome. *)
Theorem assign_scalar_then_fetch st st' (this : addr) (v : T) :
  assign_scalar this v st = (Ok this, st') ->
  (forall (f : tensor_core T -> result nat) (x : T) st'',
     fetch this f st' = (Ok x, st'') -> x = v /\ st'' = st') /\
  (forall w : T, assign_scalar this w st' = assign_scalar this w st).
Proof.
  unfold assign_scalar at 1, mbind, M_bind, load, save, mret, M_ret.
  destruct (st !! this) as [t|] eqn:Ht; [|discriminate].
  intros [= <-]; split.
  - intros f x st'' Hf.
    apply fetch_inv in Hf as (-> & [(_ & [=])|(t' & Ht' & Hx)]).
    split; [|reflexivity].
    rewrite lookup_insert_eq in Ht'; injection Ht' as <-.
    unfold read in Hx; destruct (f _) as [pos| |]; try discriminate.
    simpl in Hx; rewrite fill_n_all in Hx.
    destruct (replicate _ _ !! pos) as [y|] eqn:Hy; [|discriminate].
    apply lookup_replicate in Hy as [-> _]; congruence.
  - intros w; unfold assign_scalar, mbind, M_bind, load, save, mret, M_ret.
    rewrite lookup_insert_eq, Ht, insert_insert_eq.
    unfold set_container; simpl.
    now rewrite !fill_n_all, length_replicate.
Qed.

(** ** Exceptions *)

Lemma swap_cases st p q :
  (exists a b, st !! p = Some a /\ st !! q = Some b /\
     swap p q st = (Ok tt, <[q := a]> (<[p := b]> st))) \/
  swap p q st = (Undefined, st).
Proof.
  destruct (st !! p) as [a|] eqn:Ha; [destruct (st !! q) as [b|] eqn:Hb|].
  - left; exists a, b; auto using swap_spec.
  - right; apply swap_undefined; auto.
  - right; apply swap_undefined; auto.
Qed.

Lemma assign_copy_no_throw st st' (this arg : addr) (e : exception) :
  assign_copy this arg st <> (Throw e, st').
Proof.
  unfold assign_copy, mbind at 1, M_bind at 1, load.
  destruct (st !! arg) as [src|]; [|discriminate].
  unfold mbind at 1, M_bind at 1, alloc.
  unfold mbind at 1, M_bind at 1.
  destruct (swap_cases (<[fresh (dom st) := src]> st) this (fresh (dom st)))
    as [(a & b & _ & _ & E)|E]; rewrite E; [|discriminate].
  unfold mbind, M_bind, free, mret, M_ret.
  rewrite lookup_insert_eq; discriminate.
Qed.

Lemma at_throws t (i1 : Z) (is_ : list Z) (e : exception) :
  at_ t i1 is_ = Throw e -> e = invalid_argument \/ e = out_of_range.
Proof.
  destruct is_ as [|i2 is_]; simpl; unfold at_single, at_multi, vector_at;
    repeat case_decide; intros [= <-]; auto.
Qed.

Lemma subscript_no_throw t (i : Z) (e : exception) : subscript t i <> Throw e.
Proof. unfold subscript, vector_index; case_decide; discriminate. Qed.

Lemma read_Throw t (r : result nat) (e : exception) :
  read t r = Throw e -> r = Throw e.
Proof.
  destruct r as [pos| |]; simpl; try congruence.
  destruct (_ !! pos); discriminate.
Qed.

Lemma bind_ret_Throw {A : Type} (m : M T A) st st' (e : exception) :
  (m ≫= fun _ => mret tt) st = (Throw e, st') -> m st = (Throw e, st').
Proof.
  unfold mbind, M_bind, mret, M_ret.
  destruct (m st) as [[a|e'|] st1]; intros [= <- <-]; reflexivity.
Qed.

(** X15: no statement of a client, expression assignment apart, leaves a
    trace when it throws: the store is as before the call.  The constructor
    throws [std::length_error] only, [size(r)] [std::out_of_range] only,
    the Einstein-index call [std::invalid_argument] only, and [at] and the
    call operator one of the latter two; copy construction, destruction,
    the copy and the scalar assignment, [swap] and [operator[]] do not
    throw. *)
Theorem exec_throw_unchanged (c : command) st st' (e : exception) :
  (forall p expr, c <> AssignExpr p expr) ->
  exec T0 c st = (Throw e, st') ->
  st' = st /\ throwing c = true /\
  match c with
  | New _ => e = length_error
  | GetSize _ _ => e = out_of_range
  | CallIndex _ _ _ => e = invalid_argument
  | _ => e = invalid_argument \/ e = out_of_range
  end.
Proof.
  intros Hc; destruct c; simpl.
  - unfold mbind, M_bind, lift, alloc, mret, M_ret.
    destruct (tensor_core_ctor_cases T0 is_) as [(_ & E)|(_ & E)]; rewrite E;
      [discriminate|intros [= <- <-]; auto].
  - unfold mbind, M_bind, load, alloc; destruct (st !! src); discriminate.
  - unfold free; destruct (st !! p); discriminate.
  - now destruct (Hc p expr).
  - intros H; apply bind_ret_Throw in H; now apply assign_copy_no_throw in H.
  - unfold assign_scalar, mbind, M_bind, load, save; destruct (st !! p); discriminate.
  - intros H; apply write_inv in H
      as [(_ & [=] & _)|(t & _ & [(pos & _ & [=] & _)|[(e' & Hf & [= <-] & ->)|(_ & [=] & _)]])].
    apply at_throws in Hf; auto.
  - intros H; apply write_inv in H
      as [(_ & [=] & _)|(t & _ & [(pos & _ & [=] & _)|[(e' & Hf & [= <-] & ->)|(_ & [=] & _)]])].
    apply at_throws in Hf; auto.
  - intros H; apply write_inv in H
      as [(_ & [=] & _)|(t & _ & [(pos & _ & [=] & _)|[(e' & Hf & [= <-] & ->)|(_ & [=] & _)]])].
    now apply subscript_no_throw in Hf.
  - intros H; apply bind_ret_Throw, fetch_inv in H as (-> & [(_ & [=])|(t & _ & Hr)]).
    symmetry in Hr; apply read_Throw, at_throws in Hr; auto.
  - intros H; apply bind_ret_Throw, fetch_inv in H as (-> & [(_ & [=])|(t & _ & Hr)]).
    symmetry in Hr; apply read_Throw, at_throws in Hr; auto.
  - intros H; apply bind_ret_Throw, fetch_inv in H as (-> & [(_ & [=])|(t & _ & Hr)]).
    symmetry in Hr; now apply read_Throw, subscript_no_throw in Hr.
  - unfold mbind, M_bind, load, lift, size_r, mret, M_ret.
    destruct (st !! p) as [t|]; [|discriminate].
    destruct (_extents t !! _); [discriminate|intros [= <- <-]; auto].
  - intros H; apply bind_ret_Throw in H; revert H.
    unfold call_index, mbind, M_bind, load, throw, mret, M_ret.
    destruct (st !! p); [|discriminate].
    case_decide; intros [= <- <-]; auto.
  - intros H; destruct (swap_cases st p q) as [(a & b & _ & _ & E)|E];
      rewrite E in H; discriminate.
Qed.

(** X16: element access, [size(r)], the Einstein-index call and the
    scalar assignment never reshape: however such a statement ends, every
    tensor of the store is still there with its extents, its strides and
    its size, and no tensor is added. *)
Theorem exec_keeps_shape (c : command) st st' (r : result unit) :
  keeps_shape c = true ->
  exec T0 c st = (r, st') ->
  (forall q t, st !! q = Some t ->
     exists t', st' !! q = Some t' /\
       extents t' = extents t /\ strides t' = strides t /\ size t' = size t /\
       rank t' = rank t) /\
  dom st' = dom st.
Proof.
  assert (Hsame : forall q t, st !! q = Some t ->
            exists t', st !! q = Some t' /\
              extents t' = extents t /\ strides t' = strides t /\ size t' = size t /\
              rank t' = rank t) by (intros q t Hq; exists t; auto).
  assert (Hupd : forall p t c', st !! p = Some t ->
            length c' = length (_container t) ->
            (forall q u, st !! q = Some u ->
               exists u', <[p := set_container t c']> st !! q = Some u' /\
                 extents u' = extents u /\ strides u' = strides u /\ size u' = size u /\
                 rank u' = rank u) /\
            dom (<[p := set_container t c']> st) = dom st).
  { intros p t c' Hp Hlen; split.
    - intros q u Hq; destruct (decide (q = p)) as [->|Hne].
      + rewrite lookup_insert_eq; eexists; split; [reflexivity|].
        assert (u = t) by congruence; subst u.
        unfold size; simpl; rewrite Hlen; auto.
      + rewrite lookup_insert_ne by done; eauto.
    - rewrite dom_insert_L.
      apply subseteq_union_1_L, singleton_subseteq_l, elem_of_dom; eauto. }
  assert (Hwrite : forall p f v, write p f v st = (r, st') ->
            (forall q t, st !! q = Some t ->
               exists t', st' !! q = Some t' /\
                 extents t' = extents t /\ strides t' = strides t /\ size t' = size t /\
                 rank t' = rank t) /\
            dom st' = dom st).
  { intros p f v H; apply write_inv in H
      as [(_ & _ & ->)|(t & Hp & [(pos & _ & _ & ->)|[(e' & _ & _ & ->)|(_ & _ & ->)]])];
      auto.
    apply Hupd; [assumption|apply length_insert]. }
  assert (Hfetch : forall p f (r' : result T) st1, fetch p f st = (r', st1) -> st1 = st)
    by (intros p f r' st1 H; now apply fetch_inv in H).
  destruct c; simpl; try discriminate; intros _.
  - unfold assign_scalar, mbind, M_bind, load, save, mret, M_ret.
    destruct (st !! p) as [t|] eqn:Hp; intros [= <- <-]; [|auto].
    apply Hupd; [assumption|now rewrite fill_n_all, length_replicate].
  - apply Hwrite.
  - apply Hwrite.
  - apply Hwrite.
  - unfold mbind, M_bind; destruct (fetch _ _ st) as [[x|e'|] st1] eqn:E;
      apply Hfetch in E; subst st1; intros [= <- <-]; auto.
  - unfold mbind, M_bind; destruct (fetch _ _ st) as [[x|e'|] st1] eqn:E;
      apply Hfetch in E; subst st1; intros [= <- <-]; auto.
  - unfold mbind, M_bind; destruct (fetch _ _ st) as [[x|e'|] st1] eqn:E;
      apply Hfetch in E; subst st1; intros [= <- <-]; auto.
  - unfold mbind, M_bind, load, lift, mret, M_ret.
    destruct (st !! p) as [t|]; [destruct (size_r t _)|]; intros [= <- <-]; auto.
  - unfold call_index, mbind, M_bind, load, throw, mret, M_ret.
    destruct (st !! p); [case_decide|]; intros [= <- <-]; auto.
Qed.

End tensor_core_more.

(** ** Concrete runs *)

Lemma span2_never_throws_witness :
  in_ptrdiff (5 + 3) /\
  span2 5 2 = Ok {| first_ := 5; last_ := 2; step_ := 1 |} /\
  span_index {| first_ := 5; last_ := 2; step_ := 1 |} 3 = 5 + 3.
Proof.
  assert (H : in_ptrdiff (5 + 3)) by (vm_compute; split; discriminate).
  destruct (span2_never_throws 5 2) as (E & _ & Hidx).
  split; [exact H|split; [exact E|exact (Hidx 3 H)]].
Defined.

Lemma at_single_bounds_witness :
  let t := {| _extents := [2; 3]; _strides := [1; 2]; _container := replicate 6 0 |} in
  (in_ptrdiff (-1) /\ -1 < 0 /\ size t <= PTRDIFF_MAX) /\
  at_ t (-1) [] = Throw out_of_range.
Proof.
  cbv zeta.
  assert (H1 : in_ptrdiff (-1)) by (vm_compute; split; discriminate).
  assert (H2 : -1 < 0) by lia.
  assert (H3 : size ({| _extents := [2; 3]; _strides := [1; 2]; _container := replicate 6 0 |}) <= PTRDIFF_MAX)
    by (vm_compute; discriminate).
  destruct (at_single_bounds ({| _extents := [2; 3]; _strides := [1; 2]; _container := replicate 6 0 |}) (-1))
    as (_ & _ & _ & _ & _ & H).
  split; [split; [exact H1|split; [exact H2|exact H3]]|exact (H H1 H2 H3)].
Defined.

Lemma write_then_fetch_witness :
  let st : store Z := <[0%nat := {| _extents := [2; 2]; _strides := [1; 2]; _container := replicate 4 0 |}]> ∅ in
  let st' := snd (write 0%nat (fun t => at_ t 1 [1]) 9 st) in
  write 0%nat (fun t => at_ t 1 [1]) 9 st = (Ok tt, st') /\
  fetch 0%nat (fun t => at_ t 1 [1]) st' = (Ok 9, st').
Proof.
  cbv zeta.
  assert (H : write 0%nat (fun t => at_ t 1 [1]) 9
                (<[0%nat := {| _extents := [2; 2]; _strides := [1; 2]; _container := replicate 4 0 |}]> ∅ : store Z)
              = (Ok tt, snd (write 0%nat (fun t => at_ t 1 [1]) 9
                  (<[0%nat := {| _extents := [2; 2]; _strides := [1; 2]; _container := replicate 4 0 |}]> ∅ : store Z))))
    by reflexivity.
  split; [exact H|].
  exact (proj1 (write_then_fetch _ _ 0%nat 1 [1] 9) H).
Defined.

Lemma write_frame_witness :
  let st : store Z := <[0%nat := {| _extents := [2; 2]; _strides := [1; 2]; _container := replicate 4 0 |}]> ∅ in
  let st' := snd (write 0%nat (fun t => subscript t 2) 9 st) in
  write 0%nat (fun t => subscript t 2) 9 st = (Ok tt, st') /\
  st' !! 0%nat
  = Some {| _extents := [2; 2]; _strides := [1; 2]; _container := [0; 0; 9; 0] |} /\
  exists (t t' : tensor_core Z) (pos : nat),
    st !! 0%nat = Some t /\ st' !! 0%nat = Some t' /\
    subscript t 2 = Ok pos /\
    _extents t' = _extents t /\ _strides t' = _strides t /\ size t' = size t /\
    (forall j : nat, j <> pos -> _container t' !! j = _container t !! j) /\
    ((pos < length (_container t))%nat -> _container t' !! pos = Some 9).
Proof.
  cbv zeta.
  assert (H : write 0%nat (fun t => subscript t 2) 9
                (<[0%nat := {| _extents := [2; 2]; _strides := [1; 2]; _container := replicate 4 0 |}]> ∅ : store Z)
              = (Ok tt, snd (write 0%nat (fun t => subscript t 2) 9
                  (<[0%nat := {| _extents := [2; 2]; _strides := [1; 2]; _container := replicate 4 0 |}]> ∅ : store Z))))
    by reflexivity.
  split; [exact H|split; [reflexivity|]].
  exact (proj2 (write_frame _ _ _ _ _ H)).
Defined.

Lemma assign_copy_value_witness :
  let a := {| _extents := [2; 2]; _strides := [1; 2]; _container := replicate 4 0 |} in
  let b := {| _extents := [3]; _strides := [1]; _container := replicate 3 0 |} in
  let st : store Z := <[1%nat := b]> (<[0%nat := a]> ∅) in
  (st !! 0%nat = Some a /\ st !! 1%nat = Some b) /\
  exists st' : store Z,
    assign_copy 0%nat 1%nat st = (Ok 0%nat, st') /\
    st' !! 0%nat = Some b /\ dom st' = dom st.
Proof.
  cbv zeta.
  assert (Ha : (<[1%nat := {| _extents := [3]; _strides := [1]; _container := replicate 3 0 |}]>
                  (<[0%nat := {| _extents := [2; 2]; _strides := [1; 2]; _container := replicate 4 0 |}]> ∅)
                  : store Z) !! 0%nat
               = Some ({| _extents := [2; 2]; _strides := [1; 2]; _container := replicate 4 0 |}))
    by reflexivity.
  assert (Hb : (<[1%nat := {| _extents := [3]; _strides := [1]; _container := replicate 3 0 |}]>
                  (<[0%nat := {| _extents := [2; 2]; _strides := [1; 2]; _container := replicate 4 0 |}]> ∅)
                  : store Z) !! 1%nat
               = Some ({| _extents := [3]; _strides := [1]; _container := replicate 3 0 |}))
    by reflexivity.
  split; [split; assumption|].
  destruct (assign_copy_value _ 0%nat 1%nat _ _ Ha Hb) as (st' & Hrun & Hthis & _ & Hdom & _).
  exists st'; repeat split; assumption.
Defined.

Lemma swap_symmetric_witness :
  let t := {| _extents := [2; 2]; _strides := [1; 2]; _container := replicate 4 0 |} in
  let st : store Z := <[0%nat := t]> ∅ in
  st !! 0%nat = Some t /\ swap 0%nat 0%nat st = (Ok tt, st).
Proof.
  cbv zeta.
  assert (Ht : (<[0%nat := {| _extents := [2; 2]; _strides := [1; 2]; _container := replicate 4 0 |}]> ∅
                  : store Z) !! 0%nat
               = Some ({| _extents := [2; 2]; _strides := [1; 2]; _container := replicate 4 0 |}))
    by reflexivity.
  split; [exact Ht|].
  exact (proj2 (swap_symmetric _ 0%nat 0%nat) _ Ht).
Defined.

Lemma assign_scalar_then_fetch_witness :
  let st : store Z := <[0%nat := {| _extents := [2; 2]; _strides := [1; 2]; _container := replicate 4 0 |}]> ∅ in
  let st' := snd (assign_scalar 0%nat 7 st) in
  assign_scalar 0%nat 7 st = (Ok 0%nat, st') /\
  fetch 0%nat (fun t => at_ t 1 [1]) st' = (Ok 7, st') /\
  assign_scalar 0%nat 8 st' = assign_scalar 0%nat 8 st.
Proof.
  cbv zeta.
  assert (H : assign_scalar 0%nat 7
                (<[0%nat := {| _extents := [2; 2]; _strides := [1; 2]; _container := replicate 4 0 |}]> ∅ : store Z)
              = (Ok 0%nat, snd (assign_scalar 0%nat 7
                  (<[0%nat := {| _extents := [2; 2]; _strides := [1; 2]; _container := replicate 4 0 |}]> ∅ : store Z))))
    by reflexivity.
  destruct (assign_scalar_then_fetch _ _ _ _ H) as (_ & Hlast).
  split; [exact H|split; [reflexivity|exact (Hlast 8)]].
Defined.

Lemma exec_throw_unchanged_witness :
  let t := {| _extents := [2; 3; 4]; _strides := [1; 2; 6]; _container := replicate 24 0 |} in
  let st : store Z := <[0%nat := t]> ∅ in
  ((forall p expr, SetAt 0%nat 1 [2] 5 <> AssignExpr p expr) /\
   exec (layout := first_order) (traits := vector_traits) 0 (SetAt 0%nat 1 [2] 5) st
   = (Throw invalid_argument, st)) /\
  ((forall p expr, New (T := Z) [-1] <> AssignExpr p expr) /\
   exec (layout := first_order) (traits := vector_traits) 0 (New [-1]) st
   = (Throw length_error, st)) /\
  ((forall p expr, GetSize (T := Z) 0%nat 3 <> AssignExpr p expr) /\
   exec (layout := first_order) (traits := vector_traits) 0 (GetSize 0%nat 3) st
   = (Throw out_of_range, st)) /\
  throwing (SetAt 0%nat 1 [2] 5 : command) = true /\
  throwing (New [-1] : command (T := Z)) = true /\
  throwing (GetSize 0%nat 3 : command (T := Z)) = true.
Proof.
  cbv zeta.
  assert (Hc1 : forall p expr, SetAt (T := Z) 0%nat 1 [2] 5 <> AssignExpr p expr)
    by (intros p expr; discriminate).
  assert (Hc2 : forall p expr, New (T := Z) [-1] <> AssignExpr p expr)
    by (intros p expr; discriminate).
  assert (Hc3 : forall p expr, GetSize (T := Z) 0%nat 3 <> AssignExpr p expr)
    by (intros p expr; discriminate).
  assert (H1 : exec (layout := first_order) (traits := vector_traits) 0 (SetAt 0%nat 1 [2] 5)
                 (<[0%nat := {| _extents := [2; 3; 4]; _strides := [1; 2; 6];
                                _container := replicate 24 0 |}]> ∅ : store Z)
               = (Throw invalid_argument,
                  <[0%nat := {| _extents := [2; 3; 4]; _strides := [1; 2; 6];
                                _container := replicate 24 0 |}]> ∅))
    by reflexivity.
  assert (H2 : exec (layout := first_order) (traits := vector_traits) 0 (New [-1])
                 (<[0%nat := {| _extents := [2; 3; 4]; _strides := [1; 2; 6];
                                _container := replicate 24 0 |}]> ∅ : store Z)
               = (Throw length_error,
                  <[0%nat := {| _extents := [2; 3; 4]; _strides := [1; 2; 6];
                                _container := replicate 24 0 |}]> ∅))
    by reflexivity.
  assert (H3 : exec (layout := first_order) (traits := vector_traits) 0 (GetSize 0%nat 3)
                 (<[0%nat := {| _extents := [2; 3; 4]; _strides := [1; 2; 6];
                                _container := replicate 24 0 |}]> ∅ : store Z)
               = (Throw out_of_range,
                  <[0%nat := {| _extents := [2; 3; 4]; _strides := [1; 2; 6];
                                _container := replicate 24 0 |}]> ∅))
    by reflexivity.
  destruct (exec_throw_unchanged 0 _ _ _ _ Hc1 H1) as (_ & T1 & _).
  destruct (exec_throw_unchanged 0 _ _ _ _ Hc2 H2) as (_ & T2 & _).
  destruct (exec_throw_unchanged 0 _ _ _ _ Hc3 H3) as (_ & T3 & _).
  split; [split; [exact Hc1|exact H1]|].
  split; [split; [exact Hc2|exact H2]|].
  split; [split; [exact Hc3|exact H3]|].
  split; [exact T1|split; [exact T2|exact T3]].
Defined.

Lemma exec_keeps_shape_witness :
  let t := {| _extents := [2; 2]; _strides := [1; 2]; _container := replicate 4 0 |} in
  let st : store Z := <[0%nat := t]> ∅ in
  let st' := snd (exec (layout := first_order) (traits := vector_traits) 0 (AssignScalar 0%nat 7) st) in
  keeps_shape (AssignScalar 0%nat 7 : command) = true /\
  exists t' : tensor_core Z,
    st' !! 0%nat = Some t' /\ extents t' = extents t /\ strides t' = strides t /\
    size t' = size t /\ rank t' = rank t.
Proof.
  cbv zeta.
  assert (Hk : keeps_shape (AssignScalar (T := Z) 0%nat 7) = true) by reflexivity.
  assert (Ht : (<[0%nat := {| _extents := [2; 2]; _strides := [1; 2]; _container := replicate 4 0 |}]> ∅
                  : store Z) !! 0%nat
               = Some ({| _extents := [2; 2]; _strides := [1; 2]; _container := replicate 4 0 |}))
    by reflexivity.
  assert (H : exec (layout := first_order) (traits := vector_traits) 0 (AssignScalar 0%nat 7)
                (<[0%nat := {| _extents := [2; 2]; _strides := [1; 2]; _container := replicate 4 0 |}]> ∅ : store Z)
              = (Ok tt, snd (exec (layout := first_order) (traits := vector_traits) 0 (AssignScalar 0%nat 7)
                  (<[0%nat := {| _extents := [2; 2]; _strides := [1; 2]; _container := replicate 4 0 |}]> ∅ : store Z))))
    by reflexivity.
  split; [exact Hk|].
  exact (proj1 (exec_keeps_shape 0 _ _ _ _ Hk H) _ _ Ht).
Defined.
